(** * tracker.ino: antenna tracker driving two RC servomotors

    A shallow embedding of the control loop of [tracker.ino] and the
    properties of its coordinate mapping, slew limiter, serial command
    parser and inactivity timer.

    The sketch is written for the Arduino boards built on AVR, where
    [int] has 16 bits.  Every [int] of the sketch is a [Z] here and every arithmetic
    operator wraps its result into the 16-bit two's complement range.
    Division and remainder are the C ones (truncation towards zero,
    [Z.quot] and [Z.rem]). *)

From Stdlib Require Import ZArith Lia Bool List Ascii String.
Import ListNotations.
Local Open Scope Z_scope.

(** ** The [int] type of the sketch *)

Module Int16.

Definition int_min : Z := -32768.
Definition int_max : Z := 32767.

(** Reduction of a mathematical result into the range of [int]. *)
Definition wrap (z : Z) : Z := (z + 32768) mod 65536 - 32768.

Definition in_int (z : Z) : Prop := int_min <= z <= int_max.

Definition add (a b : Z) : Z := wrap (a + b).
Definition sub (a b : Z) : Z := wrap (a - b).
Definition neg (a : Z) : Z := wrap (- a).
Definition div (a b : Z) : Z := wrap (Z.quot a b).
Definition rem (a b : Z) : Z := wrap (Z.rem a b).

(** Arduino.h: [#define abs(x) ((x)>0?(x):-(x))]. *)
Definition abs (x : Z) : Z := if x >? 0 then x else neg x.

End Int16.

Import Int16.

(** ** translateAZEL (lines 205-247)

    The two output parameters are pointers to variables that already hold
    a value; the pair [out] is that value on entry and the result is the
    value on exit.  The [switch] has no [default]: when no [case] matches
    the pointed-to variables are not written. *)

Definition translateAZEL (AZ EL : Z) (out : Z * Z) : Z * Z :=
  let AZ := rem AZ 360 in
  let EL := rem EL 360 in
  let EL := if EL >? 90 then 90 else EL in
  let quadrant := div AZ 90 in
  if quadrant =? 0 then (sub 90 AZ, EL)
  else if quadrant =? 1 then (sub 270 AZ, sub 180 EL)
  else if quadrant =? 2 then (sub 270 AZ, sub 180 EL)
  else if quadrant =? 3 then (sub 450 AZ, EL)
  else out.

(** ** The slew limiter (lines 141-163 for azimuth, 165-187 for elevation)

    The two blocks of [loop] are the same statements on the variables of
    one axis; [slew last pos minper maxper] is the value of
    [last_XXservo_pos] after the block, from its value [last] before it,
    the target [pos] computed by [translateAZEL] and the two limits of the
    axis. *)

Definition slew (last pos minper maxper : Z) : Z :=
  if abs (sub last pos) <? minper then pos
  else
    let new_servo_pos := div (add last pos) 2 in
    if abs (sub new_servo_pos pos) >? maxper then
      if new_servo_pos >? last then add last maxper
      else sub last maxper
    else new_servo_pos.

(** The policy of the slew limiter in the words of its specification, on
    mathematical integers: snap when closer than [minStepDeg], otherwise
    go half way, unless the half-way point is more than [maxStepDeg] from
    the target, in which case move [maxStepDeg] towards the target. *)

Definition step_policy (lastDeg targetDeg minStepDeg maxStepDeg : Z) : Z :=
  if Z.abs (lastDeg - targetDeg) <? minStepDeg then targetDeg
  else
    let candidate := Z.quot (lastDeg + targetDeg) 2 in
    if Z.abs (candidate - targetDeg) <=? maxStepDeg then candidate
    else if lastDeg <? targetDeg then lastDeg + maxStepDeg
    else lastDeg - maxStepDeg.

(** The quadrant table of the specification. *)

Definition quadrant_table (az el : Z) : Z * Z :=
  if az <? 90 then (90 - az, el)
  else if az <? 270 then (270 - az, 180 - el)
  else (450 - az, el).

(** ** Global variables and the static variables of [loop]

    [Config] holds the globals that are initialised at their declaration
    and never assigned afterwards (lines 58-73); [State] holds the
    variables that [loop] assigns: its static locals (lines 98-106) and
    the global [reset_timer]. *)

Record Config : Type := mkConfig {
  ELservo_zero_is_min : bool;
  AZservo_zero_is_min : bool;
  slot_time_ms : Z;
  reset_limit_ms : Z;
  minAZperslot : Z;
  minELperslot : Z;
  maxAZperslot : Z;
  maxELperslot : Z
}.

Definition sketch_config : Config :=
  {| ELservo_zero_is_min := true;
     AZservo_zero_is_min := false;
     slot_time_ms := 100;
     reset_limit_ms := 30000;
     minAZperslot := 3;
     minELperslot := 3;
     maxAZperslot := 15;
     maxELperslot := 15 |}.

Record State : Type := mkState {
  AZ : Z;
  EL : Z;
  AZservo_pos : Z;
  ELservo_pos : Z;
  last_AZservo_pos : Z;
  last_ELservo_pos : Z;
  reset_timer : Z
}.

(** The initialisers of lines 67 and 98-106. *)
Definition boot_state : State :=
  {| AZ := 0; EL := 0;
     AZservo_pos := 90; ELservo_pos := 0;
     last_AZservo_pos := 90; last_ELservo_pos := 0;
     reset_timer := 0 |}.

(** ** driveEL and driveAZ (lines 249-279)

    The value is the angle handed to [Servo.write]; the diagnostic text
    printed on the serial port is not modelled. *)

Definition driveEL (g : Config) (el : Z) : Z :=
  if ELservo_zero_is_min g then el else sub 180 el.

Definition driveAZ (g : Config) (az : Z) : Z :=
  if AZservo_zero_is_min g then az else sub 180 az.

(** ** A reference reader for numbers

    [Serial.parseFloat] belongs to the Arduino core library, not to the
    sketch.  The control loop below takes it as a parameter; the
    following reader is an instance used to run the loop on concrete
    input. *)

(** A decimal number: [mantissa / 10 ^ decimals]. *)
Record decimal : Type := mkDecimal { mantissa : Z; decimals : nat }.

Definition is_digit (c : ascii) : bool :=
  let n := Z.of_N (N_of_ascii c) in (48 <=? n) && (n <=? 57).

Definition digit_value (c : ascii) : Z := Z.of_N (N_of_ascii c) - 48.

Definition is_minus (c : ascii) : bool := Ascii.eqb c "-"%char.
Definition is_point (c : ascii) : bool := Ascii.eqb c "."%char.

Fixpoint skip_non_numeric (b : list ascii) : list ascii :=
  match b with
  | [] => []
  | c :: r => if is_digit c || is_minus c then b else skip_non_numeric r
  end.

Fixpoint scan_number (b : list ascii) (value : Z) (isFraction : bool)
  (digits : nat) : decimal * list ascii :=
  match b with
  | [] => (mkDecimal value digits, [])
  | c :: r =>
      if is_digit c then
        scan_number r (10 * value + digit_value c) isFraction
          (if isFraction then S digits else digits)
      else if is_point c then scan_number r value true digits
      else (mkDecimal value digits, b)
  end.

(** Modelled from the spec: the numeric-token scanner behind
    [Serial.parseFloat] (Arduino core, absent from the sketch).  It skips
    every character that cannot start a number, then reads an optional
    sign, digits and a fractional part, and leaves the rest of the stream
    in place; an exhausted stream reads as zero.  The value is kept as an
    exact decimal. *)
Definition parseFloat_model (b : list ascii) : decimal * list ascii :=
  match skip_non_numeric b with
  | [] => (mkDecimal 0 0, [])
  | c :: r =>
      if is_minus c then
        let '(d, rest) := scan_number r 0 false 0 in
        (mkDecimal (- mantissa d) (decimals d), rest)
      else scan_number (c :: r) 0 false 0
  end.

(** Modelled from the spec: the cast [(int)] applied to the number read,
    which drops the fractional part. *)
Definition decimal_to_int (d : decimal) : Z :=
  wrap (Z.quot (mantissa d) (10 ^ Z.of_nat (decimals d))).

(** ** The control loop (lines 94-203) *)

Section Tracker.

(** [Serial.parseFloat]: the number read and the stream left behind it. *)
Variable float : Type.
Variable parseFloat : list ascii -> float * list ascii.
(** The cast [(int)] of line 123 and 125. *)
Variable float_to_int : float -> Z.

(** Lines 119-134: the body of the [while] once ['A'] has been read.
    [rest] is the stream behind the ['A'].  The LED and the text echoed
    on the port are not modelled. *)
Definition read_frame (s : State) (rest : list ascii) : State * list ascii :=
  let '(f1, rest1) := parseFloat rest in
  let '(f2, rest2) := parseFloat rest1 in
  ({| AZ := float_to_int f1;
      EL := float_to_int f2;
      AZservo_pos := AZservo_pos s;
      ELservo_pos := ELservo_pos s;
      last_AZservo_pos := last_AZservo_pos s;
      last_ELservo_pos := last_ELservo_pos s;
      reset_timer := 0 |}, rest2).

(** Lines 113-135.  [buf] is the pending input of the serial port;
    [Serial.available() > 0] holds when it is not empty and
    [Serial.read()] removes its first byte.  Every iteration removes at
    least one byte, so [length buf] iterations are enough ([drain]). *)
Fixpoint drain_loop (fuel : nat) (s : State) (buf : list ascii)
  : State * list ascii :=
  match fuel with
  | O => (s, buf)
  | S fuel' =>
      match buf with
      | [] => (s, [])
      | c :: rest =>
          if Ascii.eqb c "A"%char then
            let '(s', rest') := read_frame s rest in
            drain_loop fuel' s' rest'
          else (s, rest)
      end
  end.

Definition drain (s : State) (buf : list ascii) : State * list ascii :=
  drain_loop (List.length buf) s buf.

(** Lines 137-201: everything behind the [while], from the state [s]
    left by it.  The second component is the pair of angles written to
    the azimuth and to the elevation servo. *)
Definition control (g : Config) (s : State) : State * (Z * Z) :=
  let '(azp, elp) :=
    translateAZEL (AZ s) (EL s) (AZservo_pos s, ELservo_pos s) in
  let last_az := slew (last_AZservo_pos s) azp (minAZperslot g) (maxAZperslot g) in
  let last_el := slew (last_ELservo_pos s) elp (minELperslot g) (maxELperslot g) in
  let driven := (driveAZ g last_az, driveEL g last_el) in
  let timer := add (reset_timer s) (slot_time_ms g) in
  if timer >? reset_limit_ms g then
    ({| AZ := 0; EL := 0;
        AZservo_pos := azp; ELservo_pos := elp;
        last_AZservo_pos := last_az; last_ELservo_pos := last_el;
        reset_timer := 0 |}, driven)
  else
    ({| AZ := AZ s; EL := EL s;
        AZservo_pos := azp; ELservo_pos := elp;
        last_AZservo_pos := last_az; last_ELservo_pos := last_el;
        reset_timer := timer |}, driven).

(** One call of [loop]: the new state, the input left pending and the
    angles written to the servos. *)
Definition loop (g : Config) (s : State) (buf : list ascii)
  : State * list ascii * (Z * Z) :=
  let '(s1, buf1) := drain s buf in
  let '(s2, driven) := control g s1 in
  (s2, buf1, driven).

(** Successive calls of [loop].  The [n]-th element of [arrivals] is the
    input that reaches the port before the [n]-th call; it queues up
    behind what the previous calls left pending. *)
Fixpoint run (g : Config) (s : State) (buf : list ascii)
  (arrivals : list (list ascii)) : State * list ascii :=
  match arrivals with
  | [] => (s, buf)
  | a :: later =>
      let '(s', buf', _) := loop g s (buf ++ a) in
      run g s' buf' later
  end.

(** No command is recognised by a call of [loop] when the port is empty
    or its first byte is not ['A']. *)
Definition quiet (buf : list ascii) : bool :=
  match buf with
  | [] => true
  | c :: _ => negb (Ascii.eqb c "A"%char)
  end.

Fixpoint quiet_run (g : Config) (s : State) (buf : list ascii)
  (arrivals : list (list ascii)) : bool :=
  match arrivals with
  | [] => true
  | a :: later =>
      quiet (buf ++ a) &&
      let '(s', buf', _) := loop g s (buf ++ a) in
      quiet_run g s' buf' later
  end.

End Tracker.

(** The loop with the reference reader. *)
Definition model_loop : Config -> State -> list ascii -> State * list ascii * (Z * Z) :=
  loop decimal parseFloat_model decimal_to_int.

Definition model_run : Config -> State -> list ascii -> list (list ascii) -> State * list ascii :=
  run decimal parseFloat_model decimal_to_int.

Definition bytes (s : string) : list ascii := list_ascii_of_string s.

(** The state after the frame [AZ123.4 EL45.6] has been received by the
    first call of [loop]. *)
Definition after_command : State :=
  fst (fst (model_loop sketch_config boot_state (bytes "AZ123.4 EL45.6"))).

(** The arithmetic of the slew limiter on [last] and [pos] stays inside
    the range of [int]: neither the sum nor the differences overflow. *)
Definition slew_defined (last pos : Z) : Prop :=
  in_int (last + pos) /\ in_int (last - pos) /\ in_int (pos - last).

(** An angle that a servo accepts. *)
Definition servo_angle (a : Z) : Prop := 0 <= a <= 180.

(** The ranges in which the servo variables of [loop] stay: the azimuth
    ones are servo angles, the elevation ones can leave [[0,180]] when a
    negative elevation is requested but stay far from the ends of
    [int]. *)
Definition in_reach (s : State) : Prop :=
  servo_angle (AZservo_pos s) /\ servo_angle (last_AZservo_pos s) /\
  -360 < ELservo_pos s < 540 /\ -360 < last_ELservo_pos s < 540.

(** The four servo variables of [loop] hold servo angles. *)
Definition servo_vars (s : State) : Prop :=
  servo_angle (AZservo_pos s) /\ servo_angle (ELservo_pos s) /\
  servo_angle (last_AZservo_pos s) /\ servo_angle (last_ELservo_pos s).

(** Integers whose sums and differences are still [int]s. *)
Definition half_int (z : Z) : Prop := -16384 <= z <= 16383.

(** The position of one axis after [n] calls of [loop] during which its
    target [pos] does not change. *)
Fixpoint slew_iter (n : nat) (last pos minper maxper : Z) : Z :=
  match n with
  | O => last
  | S n' => slew_iter n' (slew last pos minper maxper) pos minper maxper
  end.

(** A bound on the distance to the target that is left by one pass of the
    slew limiter with the limits 3 and 15 of the sketch, from the distance
    [d] before it; [settle_bound_iter n d] bounds what is left after [n]
    passes. *)
Definition settle_bound (d : Z) : Z :=
  if d <? 3 then 0 else if d <=? 30 then (d + 1) / 2 else d - 15.

Fixpoint settle_bound_iter (n : nat) (d : Z) : Z :=
  match n with
  | O => d
  | S n' => settle_bound_iter n' (settle_bound d)
  end.

(** [n] calls of [loop] that recognise no command: only the statements
    behind the [while] change the state. *)
Fixpoint idle (g : Config) (n : nat) (s : State) : State :=
  match n with
  | O => s
  | S n' => idle g n' (fst (control g s))
  end.

(** setup (lines 77-92): the angles written to the azimuth and to the
    elevation servo by [driveAZ(90)] and [driveEL(0)]. *)
Definition setup (g : Config) : Z * Z := (driveAZ g 90, driveEL g 0).

(** ** Facts on the [int] operators *)

Ltac int_range := unfold in_int, int_min, int_max in *; lia.

Lemma wrap_small (z : Z) : in_int z -> wrap z = z.
Proof.
  unfold in_int, int_min, int_max, wrap. intros H.
  rewrite Z.mod_small by lia. lia.
Qed.

Lemma wrap_in_int (z : Z) : in_int (wrap z).
Proof.
  unfold in_int, int_min, int_max, wrap.
  pose proof (Z.mod_pos_bound (z + 32768) 65536). lia.
Qed.

Lemma abs_small (x : Z) : in_int (- x) -> abs x = Z.abs x.
Proof.
  intros H. unfold abs, neg. destruct (Z.gtb_spec x 0).
  - lia.
  - rewrite wrap_small by assumption. lia.
Qed.

Lemma rem_small (a b : Z) : 0 < b <= int_max -> rem a b = Z.rem a b.
Proof.
  intros Hb. unfold rem. apply wrap_small.
  assert (Hr : Z.abs (Z.rem a b) < Z.abs b) by (apply Z.rem_bound_abs; lia).
  int_range.
Qed.

(** The truncated mean of two integers lies between them. *)
Lemma quot2_between (a b : Z) :
  Z.min a b <= Z.quot (a + b) 2 <= Z.max a b.
Proof. Z.to_euclidean_division_equations. lia. Qed.

(** The truncated mean is at most one further from one end than from the
    other. *)
Lemma quot2_halves (a b : Z) :
  Z.abs (Z.quot (a + b) 2 - a) <= Z.abs (Z.quot (a + b) 2 - b) + 1.
Proof. Z.to_euclidean_division_equations. lia. Qed.

Lemma slew_defined_servo (last pos : Z) :
  servo_angle last -> servo_angle pos -> slew_defined last pos.
Proof. unfold servo_angle, slew_defined. intros; int_range. Qed.

(** ** translateAZEL *)

(** No operation of [translateAZEL] overflows, whatever its arguments:
    the function is the following one on mathematical integers. *)
Lemma translateAZEL_math (az el : Z) (out : Z * Z) :
  translateAZEL az el out =
  let a := Z.rem az 360 in
  let e := Z.min (Z.rem el 360) 90 in
  let q := Z.quot a 90 in
  if q =? 0 then (90 - a, e)
  else if (q =? 1) || (q =? 2) then (270 - a, 180 - e)
  else if q =? 3 then (450 - a, e)
  else out.
Proof.
  unfold translateAZEL.
  rewrite !rem_small by (unfold int_max; lia).
  assert (Ha : Z.abs (Z.rem az 360) < Z.abs 360) by (apply Z.rem_bound_abs; lia).
  assert (He : Z.abs (Z.rem el 360) < Z.abs 360) by (apply Z.rem_bound_abs; lia).
  set (a := Z.rem az 360) in *. set (r := Z.rem el 360) in *.
  replace (if r >? 90 then 90 else r) with (Z.min r 90)
    by (destruct (Z.gtb_spec r 90); lia).
  set (e := Z.min r 90).
  assert (Hq : div a 90 = Z.quot a 90).
  { unfold div. apply wrap_small.
    assert (Z.abs (Z.quot a 90) <= Z.abs a) by
      (Z.to_euclidean_division_equations; lia).
    int_range. }
  rewrite Hq. cbv zeta. unfold sub.
  rewrite !wrap_small by (subst e; int_range).
  destruct (Z.quot a 90 =? 0); [reflexivity|].
  destruct (Z.quot a 90 =? 1); [reflexivity|].
  destruct (Z.quot a 90 =? 2); reflexivity.
Qed.

(** [C1] For an azimuth in [[0,359]] and an elevation in [[0,90]],
    [translateAZEL] returns the row of the quadrant table: [(90-az, el)]
    below 90, [(270-az, 180-el)] from 90 to below 270 and [(450-az, el)]
    from 270 on, whatever the output variables held before. *)
Theorem translateAZEL_quadrant_table (az el : Z) (out : Z * Z) :
  0 <= az <= 359 -> 0 <= el <= 90 ->
  translateAZEL az el out = quadrant_table az el.
Proof.
  intros Haz Hel. rewrite translateAZEL_math. cbv zeta.
  rewrite !Z.rem_small by lia. rewrite Z.min_l by lia.
  unfold quadrant_table.
  assert (Hq : 90 * Z.quot az 90 <= az < 90 * Z.quot az 90 + 90)
    by (Z.to_euclidean_division_equations; lia).
  destruct (Z.ltb_spec az 90) as [H0|H0].
  - replace (Z.quot az 90) with 0 by lia. reflexivity.
  - destruct (Z.ltb_spec az 270) as [H1|H1].
    + assert (Hc : Z.quot az 90 = 1 \/ Z.quot az 90 = 2) by lia.
      destruct Hc as [-> | ->]; reflexivity.
    + replace (Z.quot az 90) with 3 by lia. reflexivity.
Qed.

(** For requests that are not negative both servo targets are servo
    angles. *)
Lemma translateAZEL_servo_angles (az el : Z) (out : Z * Z) :
  0 <= az -> 0 <= el ->
  servo_angle (fst (translateAZEL az el out)) /\
  servo_angle (snd (translateAZEL az el out)).
Proof.
  intros Haz Hel. rewrite translateAZEL_math. cbv zeta.
  assert (Ha : 0 <= Z.rem az 360 < 360) by (apply Z.rem_bound_pos; lia).
  assert (He : 0 <= Z.rem el 360 < 360) by (apply Z.rem_bound_pos; lia).
  set (a := Z.rem az 360) in *. set (r := Z.rem el 360) in *.
  assert (Hq : 90 * Z.quot a 90 <= a < 90 * Z.quot a 90 + 90)
    by (Z.to_euclidean_division_equations; lia).
  unfold servo_angle.
  destruct (Z.eqb_spec (Z.quot a 90) 0); [cbn [fst snd]; lia|].
  destruct (Z.eqb_spec (Z.quot a 90) 1); [cbn [orb fst snd]; lia|].
  destruct (Z.eqb_spec (Z.quot a 90) 2); [cbn [orb fst snd]; lia|].
  destruct (Z.eqb_spec (Z.quot a 90) 3); [cbn [orb fst snd]; lia|].
  lia.
Qed.

(** [C3] A negative elevation is handed through to the elevation servo
    target: [translateAZEL] clamps the elevation from above only, and the
    targets for the requests [0/-10] and [100/-10] lie outside
    [[0,180]].  From the state left by [setup], the command
    [AZ0 EL-10] makes [loop] call [driveEL(-5)]. *)
Theorem translateAZEL_negative_elevation :
  translateAZEL 0 (-10) (90, 0) = (90, -10) /\
  translateAZEL 100 (-10) (90, 0) = (170, 190) /\
  ~ servo_angle (snd (translateAZEL 0 (-10) (90, 0))) /\
  ~ servo_angle (snd (translateAZEL 100 (-10) (90, 0))) /\
  model_loop sketch_config boot_state (bytes "AZ0 EL-10")
  = ({| AZ := 0; EL := -10;
        AZservo_pos := 90; ELservo_pos := -10;
        last_AZservo_pos := 90; last_ELservo_pos := -5;
        reset_timer := 100 |}, [], (90, -5)).
Proof.
  split; [reflexivity|]. split; [reflexivity|].
  split; [|split]; try reflexivity;
    vm_compute; intros [H1 H2]; first [now apply H1 | now apply H2].
Qed.

(** [C5], as amended: for an azimuth that is not negative the mapping is
    periodic in azimuth with period 360, whatever the elevation. *)
Theorem translateAZEL_periodic_nonneg (az el : Z) (out : Z * Z) :
  0 <= az ->
  translateAZEL (az + 360) el out = translateAZEL az el out.
Proof.
  intros Haz. rewrite !translateAZEL_math.
  replace (Z.rem (az + 360) 360) with (Z.rem az 360); [reflexivity|].
  rewrite !Z.rem_mod_nonneg by lia.
  replace (az + 360) with (az + 1 * 360) by lia.
  now rewrite Z.mod_add by lia.
Qed.

(** [C5], as stated, fails on its scenario: the azimuth 90 lies in
    quadrant 1, where the elevation servo is flipped to [180 - el], so the
    requests [450/0] and [90/0] are both mapped to [(180, 180)], not to
    [(180, 0)]. *)
Lemma translateAZEL_90_0_flipped :
  translateAZEL 450 0 (90, 0) = (180, 180) /\
  translateAZEL 90 0 (90, 0) = (180, 180) /\
  translateAZEL 90 0 (90, 0) <> (180, 0).
Proof. repeat split. discriminate. Qed.

(** Periodicity extends to the negative azimuths whose C remainder is
    above [-90]: they fall into quadrant 0 by truncation, where the
    formula of quadrant 3 for the azimuth one turn further gives the same
    angle. *)
Lemma translateAZEL_periodic_above_m90 (az el : Z) (out : Z * Z) :
  -90 < Z.rem az 360 ->
  translateAZEL (az + 360) el out = translateAZEL az el out.
Proof.
  intros Hr. rewrite !translateAZEL_math. cbv zeta.
  set (e := Z.min (Z.rem el 360) 90).
  destruct (Z.le_gt_cases 0 az) as [Hpos|Hneg].
  - replace (Z.rem (az + 360) 360) with (Z.rem az 360); [reflexivity|].
    rewrite !Z.rem_mod_nonneg by lia.
    replace (az + 360) with (az + 1 * 360) by lia.
    now rewrite Z.mod_add by lia.
  - destruct (Z.le_gt_cases (az + 360) 0) as [Hlow|Hhigh].
    + replace (Z.rem (az + 360) 360) with (Z.rem az 360); [reflexivity|].
      Z.to_euclidean_division_equations; lia.
    + assert (Ea : Z.rem az 360 = az)
        by (Z.to_euclidean_division_equations; lia).
      assert (Eb : Z.rem (az + 360) 360 = az + 360)
        by (Z.to_euclidean_division_equations; lia).
      rewrite Ea, Eb in *.
      replace (Z.quot az 90) with 0
        by (Z.to_euclidean_division_equations; lia).
      replace (Z.quot (az + 360) 90) with 3
        by (Z.to_euclidean_division_equations; lia).
      cbn [Z.eqb Pos.eqb orb]. f_equal. lia.
Qed.

(** For the azimuth [-100] the mapping is not periodic: no [case] of the
    [switch] matches [-100], so the servo targets keep their former value
    [(90, 0)], while [-100 + 360 = 260] is mapped to [(10, 180)].  So the
    commands [AZ-100 EL0] and [AZ260 EL0] leave [loop] with different
    azimuth targets. *)
Lemma translateAZEL_not_periodic_negative :
  translateAZEL (-100) 0 (90, 0) = (90, 0) /\
  translateAZEL (-100 + 360) 0 (90, 0) = (10, 180) /\
  AZservo_pos
    (fst (fst (model_loop sketch_config boot_state (bytes "AZ-100 EL0"))))
  = 90 /\
  AZservo_pos
    (fst (fst (model_loop sketch_config boot_state (bytes "AZ260 EL0"))))
  = 10.
Proof. repeat split. Qed.

(** A negative quadrant matches no [case]. *)
Lemma translateAZEL_no_case (az el : Z) (out : Z * Z) :
  Z.quot (Z.rem az 360) 90 < 0 -> translateAZEL az el out = out.
Proof.
  intros Hq. rewrite translateAZEL_math. cbv zeta.
  set (a := Z.rem az 360) in *.
  destruct (Z.eqb_spec (Z.quot a 90) 0); [lia|].
  destruct (Z.eqb_spec (Z.quot a 90) 1); [lia|].
  destruct (Z.eqb_spec (Z.quot a 90) 2); [lia|].
  destruct (Z.eqb_spec (Z.quot a 90) 3); [lia|].
  reflexivity.
Qed.

(** [C9] When the C remainder [az % 360] is at most [-90], the quadrant
    [az % 360 / 90] is negative, no [case] of the [switch] matches and
    both output variables keep the value they had on entry; in [loop],
    where they are static variables, the servo targets of the previous
    call persist. *)
Theorem translateAZEL_no_case_unchanged (az el : Z) (out : Z * Z) :
  Z.rem az 360 <= -90 ->
  Z.quot (Z.rem az 360) 90 < 0 /\
  translateAZEL az el out = out /\
  (forall (g : Config) (s : State),
     AZ s = az -> EL s = el ->
     AZservo_pos (fst (control g s)) = AZservo_pos s /\
     ELservo_pos (fst (control g s)) = ELservo_pos s).
Proof.
  intros H.
  assert (Hq : Z.quot (Z.rem az 360) 90 < 0)
    by (Z.to_euclidean_division_equations; lia).
  split; [exact Hq|]. split; [now apply translateAZEL_no_case|].
  intros g s <- <-. unfold control.
  rewrite (translateAZEL_no_case (AZ s) (EL s)
             (AZservo_pos s, ELservo_pos s) Hq).
  destruct (add (reset_timer s) (slot_time_ms g) >? reset_limit_ms g);
    cbn; auto.
Qed.

(** ** The slew limiter *)

(** Where its arithmetic does not overflow and the larger limit is not
    negative, the code of the slew limiter computes the policy. *)
Lemma slew_eq_policy (last pos minper maxper : Z) :
  slew_defined last pos -> 0 <= maxper ->
  slew last pos minper maxper = step_policy last pos minper maxper.
Proof.
  unfold slew_defined. intros (Hs & Hd & Hd') Hmax.
  pose proof (quot2_between last pos) as Hq.
  unfold slew, step_policy, sub, add, div.
  rewrite (wrap_small (last - pos)) by int_range.
  rewrite (abs_small (last - pos)) by int_range.
  destruct (Z.ltb_spec (Z.abs (last - pos)) minper) as [Hsnap|Hsnap];
    [reflexivity|].
  rewrite (wrap_small (last + pos)) by int_range.
  rewrite (wrap_small (Z.quot (last + pos) 2)) by int_range.
  set (c := Z.quot (last + pos) 2) in *.
  rewrite (wrap_small (c - pos)) by int_range.
  rewrite (abs_small (c - pos)) by int_range.
  destruct (Z.gtb_spec (Z.abs (c - pos)) maxper) as [Hfar|Hnear].
  - destruct (Z.leb_spec (Z.abs (c - pos)) maxper) as [Hx|_]; [lia|].
    destruct (Z.gtb_spec c last) as [Hup|Hdown];
      destruct (Z.ltb_spec last pos) as [Hlt|Hge].
    + apply wrap_small. int_range.
    + lia.
    + (* the mean is [last] itself: the target is one step above *)
      assert (maxper = 0)
        by (subst c; Z.to_euclidean_division_equations; lia).
      subst maxper. rewrite Z.add_0_r, Z.sub_0_r. apply wrap_small.
      int_range.
    + apply wrap_small. int_range.
  - destruct (Z.leb_spec (Z.abs (c - pos)) maxper) as [_|Hx];
      [reflexivity|lia].
Qed.

(** The policy never leaves the interval spanned by the last position and
    the target. *)
Lemma step_policy_between (l t mn mx : Z) :
  0 <= mx ->
  Z.min l t <= step_policy l t mn mx <= Z.max l t.
Proof.
  intros Hmx. unfold step_policy.
  pose proof (quot2_between l t) as Hq.
  destruct (Z.ltb_spec (Z.abs (l - t)) mn); [lia|].
  set (c := Z.quot (l + t) 2) in *.
  destruct (Z.leb_spec (Z.abs (c - t)) mx); [lia|].
  destruct (Z.ltb_spec l t); lia.
Qed.

(** The policy moves by at most one more than the larger limit. *)
Lemma step_policy_change (l t mn mx : Z) :
  0 <= mx -> mn <= mx + 1 ->
  Z.abs (step_policy l t mn mx - l) <= mx + 1.
Proof.
  intros Hmx Hmn. unfold step_policy.
  pose proof (quot2_halves l t) as Hh.
  destruct (Z.ltb_spec (Z.abs (l - t)) mn); [lia|].
  set (c := Z.quot (l + t) 2) in *.
  destruct (Z.leb_spec (Z.abs (c - t)) mx); [lia|].
  destruct (Z.ltb_spec l t); lia.
Qed.

(** [C4] The slew limiter of [loop] implements the ease/clamp policy:
    the target itself when it is closer than the smaller limit, otherwise
    the integer mean of last position and target when that mean is within
    the larger limit of the target, otherwise the last position moved by
    the larger limit towards the target.  This holds wherever the [int]
    arithmetic of the block does not overflow and the larger limit is not
    negative. *)
Theorem slew_implements_policy (last pos minper maxper : Z) :
  slew_defined last pos -> 0 <= maxper ->
  slew last pos minper maxper = step_policy last pos minper maxper /\
  (Z.abs (last - pos) < minper -> slew last pos minper maxper = pos) /\
  (minper <= Z.abs (last - pos) ->
   Z.abs (Z.quot (last + pos) 2 - pos) <= maxper ->
   slew last pos minper maxper = Z.quot (last + pos) 2) /\
  (minper <= Z.abs (last - pos) ->
   maxper < Z.abs (Z.quot (last + pos) 2 - pos) ->
   (last < pos -> slew last pos minper maxper = last + maxper) /\
   (pos < last -> slew last pos minper maxper = last - maxper)).
Proof.
  intros Hdef Hmax. rewrite (slew_eq_policy _ _ _ _ Hdef Hmax).
  split; [reflexivity|]. unfold step_policy.
  destruct (Z.ltb_spec (Z.abs (last - pos)) minper) as [Hsnap|Hsnap].
  - repeat split; intros; try lia; reflexivity.
  - destruct (Z.leb_spec (Z.abs (Z.quot (last + pos) 2 - pos)) maxper).
    + repeat split; intros; try lia; reflexivity.
    + destruct (Z.ltb_spec last pos); repeat split; intros; try lia;
        reflexivity.
Qed.

(** [C8], as amended: with limits [minStepDeg <= maxStepDeg] where
    [maxStepDeg] is not negative, the slew limiter moves by at most the
    larger of [maxStepDeg] and the distance to the target, and it returns
    the target whenever that distance is below [minStepDeg] (wherever
    the [int] arithmetic of the block does not overflow). *)
Theorem slew_change_bound (last pos minper maxper : Z) :
  slew_defined last pos -> minper <= maxper -> 0 <= maxper ->
  Z.abs (slew last pos minper maxper - last)
    <= Z.max maxper (Z.abs (pos - last)) /\
  (Z.abs (last - pos) < minper -> slew last pos minper maxper = pos).
Proof.
  intros Hdef Hle Hmax. rewrite (slew_eq_policy _ _ _ _ Hdef Hmax).
  pose proof (step_policy_between last pos minper maxper Hmax) as Hb.
  split.
  - unfold step_policy in *.
    destruct (Z.ltb_spec (Z.abs (last - pos)) minper); [lia|].
    destruct (Z.leb_spec (Z.abs (Z.quot (last + pos) 2 - pos)) maxper);
      [lia|].
    destruct (Z.ltb_spec last pos); lia.
  - intros Hsnap. unfold step_policy.
    destruct (Z.ltb_spec (Z.abs (last - pos)) minper); [reflexivity|lia].
Qed.

(** [C8], as stated, fails for negative limits: with [minStepDeg = -5]
    and [maxStepDeg = -1] a servo that is on its target is moved by one
    degree, more than [max (-1) 0]. *)
Lemma slew_change_bound_negative_limits :
  -5 <= -1 /\
  slew 0 0 (-5) (-1) = 1 /\
  ~ (Z.abs (slew 0 0 (-5) (-1) - 0) <= Z.max (-1) (Z.abs (0 - 0))).
Proof.
  split; [lia|]. split; [reflexivity|].
  replace (slew 0 0 (-5) (-1)) with 1 by reflexivity. cbn. lia.
Qed.

(** [C10] With limits [0 <= minStepDeg <= maxStepDeg] the slew limiter
    never overshoots: the new position lies between the last position and
    the target, and it is a servo angle when both of them are (wherever
    the [int] arithmetic of the block does not overflow, as is the case
    for servo angles). *)
Theorem slew_no_overshoot (last pos minper maxper : Z) :
  slew_defined last pos -> 0 <= minper <= maxper ->
  Z.min last pos <= slew last pos minper maxper <= Z.max last pos /\
  (servo_angle last -> servo_angle pos ->
   servo_angle (slew last pos minper maxper)).
Proof.
  intros Hdef Hlim.
  assert (Hmax : 0 <= maxper) by lia.
  rewrite (slew_eq_policy _ _ _ _ Hdef Hmax).
  pose proof (step_policy_between last pos minper maxper Hmax) as Hb.
  split; [exact Hb|]. unfold servo_angle. lia.
Qed.

(** Between two calls of [loop] a servo position changes by at most one
    degree more than the larger limit. *)
Lemma slew_change_le_succ_max (last pos minper maxper : Z) :
  slew_defined last pos -> 0 <= maxper -> minper <= maxper + 1 ->
  Z.abs (slew last pos minper maxper - last) <= maxper + 1.
Proof.
  intros Hdef Hmax Hmin. rewrite (slew_eq_policy _ _ _ _ Hdef Hmax).
  now apply step_policy_change.
Qed.

(** ** The reference reader *)

Lemma skip_non_numeric_length (b : list ascii) :
  (List.length (skip_non_numeric b) <= List.length b)%nat.
Proof.
  induction b as [|c r IH]; cbn [skip_non_numeric]; [lia|].
  destruct (is_digit c || is_minus c); cbn [List.length] in *; lia.
Qed.

Lemma scan_number_length (b : list ascii) :
  forall value isFraction digits,
  (List.length (snd (scan_number b value isFraction digits))
     <= List.length b)%nat.
Proof.
  induction b as [|c r IH]; intros value isFraction digits;
    cbn [scan_number]; [cbn; lia|].
  destruct (is_digit c).
  - specialize (IH (10 * value + digit_value c) isFraction
                  (if isFraction then S digits else digits)).
    cbn [List.length]. lia.
  - destruct (is_point c).
    + specialize (IH value true digits). cbn [List.length]. lia.
    + cbn [snd List.length]. lia.
Qed.

(** The reference reader only removes bytes from the stream. *)
Lemma parseFloat_model_consumes (b : list ascii) :
  (List.length (snd (parseFloat_model b)) <= List.length b)%nat.
Proof.
  unfold parseFloat_model.
  pose proof (skip_non_numeric_length b) as Hs.
  destruct (skip_non_numeric b) as [|c r]; [cbn; lia|].
  destruct (is_minus c).
  - pose proof (scan_number_length r 0 false 0) as Hn.
    destruct (scan_number r 0 false 0) as [d rest].
    cbn [snd List.length] in *. lia.
  - pose proof (scan_number_length (c :: r) 0 false 0) as Hn. lia.
Qed.

(** ** The command parser and the inactivity timer *)

Section TrackerFacts.

Variable float : Type.
Variable parseFloat : list ascii -> float * list ascii.
Variable float_to_int : float -> Z.

(** [Serial.parseFloat] reads from the stream: what it leaves is not
    longer than what it found. *)
Hypothesis parseFloat_consumes :
  forall b, (List.length (snd (parseFloat b)) <= List.length b)%nat.

Local Abbreviation read_frame' := (read_frame float parseFloat float_to_int).
Local Abbreviation drain_loop' := (drain_loop float parseFloat float_to_int).
Local Abbreviation drain' := (drain float parseFloat float_to_int).
Local Abbreviation loop' := (loop float parseFloat float_to_int).
Local Abbreviation run' := (run float parseFloat float_to_int).
Local Abbreviation quiet_run' := (quiet_run float parseFloat float_to_int).

Lemma read_frame_consumes (s : State) (rest : list ascii) :
  (List.length (snd (read_frame' s rest)) <= List.length rest)%nat.
Proof.
  unfold read_frame.
  pose proof (parseFloat_consumes rest) as H1.
  destruct (parseFloat rest) as [f1 rest1].
  pose proof (parseFloat_consumes rest1) as H2.
  destruct (parseFloat rest1) as [f2 rest2].
  cbn [snd] in *. lia.
Qed.

(** The [while] of lines 113-135 ends: any fuel that covers the pending
    input gives the same result. *)
Lemma drain_loop_enough (fuel1 : nat) :
  forall fuel2 s buf,
  (List.length buf <= fuel1)%nat -> (List.length buf <= fuel2)%nat ->
  drain_loop' fuel1 s buf = drain_loop' fuel2 s buf.
Proof.
  induction fuel1 as [|fuel1 IH]; intros fuel2 s buf H1 H2.
  - destruct buf; [|cbn in H1; lia]. destruct fuel2; reflexivity.
  - destruct buf as [|c rest]; [destruct fuel2; reflexivity|].
    destruct fuel2 as [|fuel2]; [cbn in H2; lia|].
    cbn [drain_loop]. destruct (Ascii.eqb c "A"); [|reflexivity].
    pose proof (read_frame_consumes s rest) as Hr.
    destruct (read_frame' s rest) as [s' rest'].
    cbn [snd List.length] in *. apply IH; lia.
Qed.

(** [C7] When the byte read is the marker ['A'], the timer is reset to 0,
    the requested azimuth and elevation become the integer parts of the
    next two numbers of the stream, and the parser goes on with what
    follows them; when the byte read is any other one, the parser stops
    and leaves the bytes behind it pending. *)
Theorem drain_marker (s : State) (c : ascii) (rest : list ascii) :
  (c = "A"%char ->
   let n1 := parseFloat rest in
   let n2 := parseFloat (snd n1) in
   drain' s (c :: rest) =
   drain' {| AZ := float_to_int (fst n1);
             EL := float_to_int (fst n2);
             AZservo_pos := AZservo_pos s;
             ELservo_pos := ELservo_pos s;
             last_AZservo_pos := last_AZservo_pos s;
             last_ELservo_pos := last_ELservo_pos s;
             reset_timer := 0 |} (snd n2)) /\
  (c <> "A"%char -> drain' s (c :: rest) = (s, rest)).
Proof.
  split.
  - intros ->. cbv zeta. unfold drain. cbn [List.length drain_loop].
    rewrite Ascii.eqb_refl.
    pose proof (read_frame_consumes s rest) as Hr.
    unfold read_frame in *.
    destruct (parseFloat rest) as [f1 rest1].
    cbn [fst snd] in *.
    destruct (parseFloat rest1) as [f2 rest2].
    cbn [fst snd] in *.
    apply drain_loop_enough; lia.
  - intros Hc. unfold drain. cbn [List.length drain_loop].
    destruct (Ascii.eqb_spec c "A"); [contradiction|reflexivity].
Qed.

(** A call of [loop] that recognises no command leaves the state to the
    statements behind the [while]. *)
Lemma drain_quiet (s : State) (buf : list ascii) :
  quiet buf = true -> fst (drain' s buf) = s.
Proof.
  destruct buf as [|c rest]; [reflexivity|].
  cbn [quiet]. intros Hq. unfold drain. cbn [List.length drain_loop].
  destruct (Ascii.eqb c "A"); [discriminate|reflexivity].
Qed.

(** Lines 194-201: the timer advances by one slot; when it then exceeds
    the limit, the request and the timer are reset. *)
Lemma control_timer (g : Config) (s : State) :
  let t := add (reset_timer s) (slot_time_ms g) in
  let s' := fst (control g s) in
  (reset_limit_ms g < t ->
   reset_timer s' = 0 /\ AZ s' = 0 /\ EL s' = 0) /\
  (t <= reset_limit_ms g ->
   reset_timer s' = t /\ AZ s' = AZ s /\ EL s' = EL s).
Proof.
  cbv zeta. unfold control.
  destruct (translateAZEL (AZ s) (EL s) (AZservo_pos s, ELservo_pos s))
    as [azp elp].
  destruct (Z.gtb_spec (add (reset_timer s) (slot_time_ms g))
              (reset_limit_ms g)); cbn [fst reset_timer AZ EL];
    split; intros; try lia; auto.
Qed.

Lemma loop_quiet (g : Config) (s : State) (buf : list ascii) :
  quiet buf = true ->
  fst (fst (loop' g s buf)) = fst (control g s).
Proof.
  intros Hq. unfold loop. pose proof (drain_quiet s buf Hq) as Hd.
  destruct (drain' s buf) as [s1 buf1]. cbn [fst] in Hd. subst s1.
  destruct (control g s) as [s2 driven]. reflexivity.
Qed.

(** [C6] Over calls of [loop] that recognise no command, the timer
    counts the slots as long as it does not exceed the limit and the
    request is left alone; at the first call at which the timer exceeds
    the limit, the request becomes [0/0] and the timer is reset to 0. *)
Theorem watchdog_quiet_run (g : Config) (arrivals : list (list ascii)) :
  forall (s : State) (buf : list ascii),
  0 < slot_time_ms g ->
  0 <= reset_timer s <= reset_limit_ms g ->
  reset_limit_ms g + slot_time_ms g <= int_max ->
  quiet_run' g s buf arrivals = true ->
  let n := Z.of_nat (List.length arrivals) in
  let s' := fst (run' g s buf arrivals) in
  (reset_timer s + n * slot_time_ms g <= reset_limit_ms g ->
   reset_timer s' = reset_timer s + n * slot_time_ms g /\
   AZ s' = AZ s /\ EL s' = EL s) /\
  (reset_timer s + (n - 1) * slot_time_ms g <= reset_limit_ms g
     < reset_timer s + n * slot_time_ms g ->
   reset_timer s' = 0 /\ AZ s' = 0 /\ EL s' = 0).
Proof.
  induction arrivals as [|a later IH]; intros s buf Hslot Ht Hlim Hq.
  - cbn. split; intros; [lia | nia].
  - cbn [quiet_run run] in *. apply andb_prop in Hq as [Hq1 Hq2].
    pose proof (loop_quiet g s (buf ++ a) Hq1) as Hl.
    destruct (loop' g s (buf ++ a)) as [[s1 buf1] driven].
    cbn [fst] in Hl. subst s1.
    pose proof (control_timer g s) as Hc. cbv zeta in Hc.
    assert (Ha : add (reset_timer s) (slot_time_ms g)
                 = reset_timer s + slot_time_ms g)
      by (apply wrap_small; int_range).
    rewrite Ha in Hc. destruct Hc as [Hfire Hcount].
    replace (Z.of_nat (List.length (a :: later)))
      with (1 + Z.of_nat (List.length later))
      by (cbn [List.length]; lia).
    set (m := Z.of_nat (List.length later)) in *.
    assert (Hm : 0 <= m) by (subst m; lia).
    cbv zeta.
    destruct (Z.le_gt_cases (reset_timer s + slot_time_ms g)
                (reset_limit_ms g)) as [Hle|Hgt].
    + destruct (Hcount Hle) as (E1 & E2 & E3).
      specialize (IH (fst (control g s)) buf1 Hslot).
      cbv zeta in IH. rewrite E1, E2, E3 in IH.
      destruct (IH ltac:(lia) Hlim Hq2) as [IH1 IH2].
      replace (reset_timer s + (1 + m) * slot_time_ms g)
        with (reset_timer s + slot_time_ms g + m * slot_time_ms g) by lia.
      replace (reset_timer s + (1 + m - 1) * slot_time_ms g)
        with (reset_timer s + slot_time_ms g + (m - 1) * slot_time_ms g)
        by lia.
      split; [exact IH1 | exact IH2].
    + destruct (Hfire Hgt) as (E1 & E2 & E3).
      split; intros H; [nia|].
      assert (m = 0) by nia.
      destruct later; [|subst m; cbn [List.length] in *; lia].
      cbn [run fst]. auto.
Qed.

End TrackerFacts.

(** ** The ranges of the servo variables *)

Lemma translateAZEL_in_reach (az el : Z) (out : Z * Z) :
  servo_angle (fst out) -> -360 < snd out < 540 ->
  servo_angle (fst (translateAZEL az el out)) /\
  -360 < snd (translateAZEL az el out) < 540.
Proof.
  intros Ho1 Ho2. rewrite translateAZEL_math. cbv zeta.
  assert (Ha : Z.abs (Z.rem az 360) < Z.abs 360)
    by (apply Z.rem_bound_abs; lia).
  assert (He : Z.abs (Z.rem el 360) < Z.abs 360)
    by (apply Z.rem_bound_abs; lia).
  set (a := Z.rem az 360) in *. set (r := Z.rem el 360) in *.
  assert (Hq : Z.abs (90 * Z.quot a 90) <= Z.abs a
               /\ Z.abs (a - 90 * Z.quot a 90) < 90)
    by (Z.to_euclidean_division_equations; lia).
  unfold servo_angle in *.
  destruct (Z.eqb_spec (Z.quot a 90) 0); [cbn [fst snd]; lia|].
  destruct (Z.eqb_spec (Z.quot a 90) 1); [cbn [orb fst snd]; lia|].
  destruct (Z.eqb_spec (Z.quot a 90) 2); [cbn [orb fst snd]; lia|].
  destruct (Z.eqb_spec (Z.quot a 90) 3); [cbn [orb fst snd]; lia|].
  cbn [orb]. lia.
Qed.

Lemma slew_defined_in_reach (last pos : Z) :
  -360 < last < 540 -> -360 < pos < 540 -> slew_defined last pos.
Proof. unfold slew_defined. intros; int_range. Qed.

(** The statements behind the [while] keep the servo variables in their
    ranges, and move each servo by at most one degree more than its larger
    limit. *)
Lemma control_in_reach (g : Config) (s : State) :
  0 <= maxAZperslot g -> 0 <= maxELperslot g ->
  minAZperslot g <= maxAZperslot g + 1 ->
  minELperslot g <= maxELperslot g + 1 ->
  in_reach s ->
  let s' := fst (control g s) in
  in_reach s' /\
  Z.abs (last_AZservo_pos s' - last_AZservo_pos s) <= maxAZperslot g + 1 /\
  Z.abs (last_ELservo_pos s' - last_ELservo_pos s) <= maxELperslot g + 1.
Proof.
  intros Haz Hel Hmaz Hmel (R1 & R2 & R3 & R4). cbv zeta.
  unfold control.
  pose proof (translateAZEL_in_reach (AZ s) (EL s)
                (AZservo_pos s, ELservo_pos s) R1 R3) as [T1 T2].
  destruct (translateAZEL (AZ s) (EL s) (AZservo_pos s, ELservo_pos s))
    as [azp elp]. cbn [fst snd] in T1, T2.
  assert (D1 : slew_defined (last_AZservo_pos s) azp)
    by (apply slew_defined_servo; assumption).
  assert (D2 : slew_defined (last_ELservo_pos s) elp)
    by (apply slew_defined_in_reach; assumption).
  pose proof (slew_change_le_succ_max _ _ _ _ D1 Haz Hmaz) as C1.
  pose proof (slew_change_le_succ_max _ _ _ _ D2 Hel Hmel) as C2.
  rewrite (slew_eq_policy _ _ (minAZperslot g) _ D1 Haz) in *.
  rewrite (slew_eq_policy _ _ (minELperslot g) _ D2 Hel) in *.
  pose proof (step_policy_between (last_AZservo_pos s) azp
                (minAZperslot g) (maxAZperslot g) Haz) as B1.
  pose proof (step_policy_between (last_ELservo_pos s) elp
                (minELperslot g) (maxELperslot g) Hel) as B2.
  unfold in_reach, servo_angle in *.
  destruct (add (reset_timer s) (slot_time_ms g) >? reset_limit_ms g);
    cbn [fst AZservo_pos ELservo_pos last_AZservo_pos last_ELservo_pos];
    lia.
Qed.

(** [C2] From the state left by [setup], the request [31/0] moves the
    azimuth servo from 90 to 74 degrees in one call of [loop]: 16 degrees,
    one more than [maxAZperslot = 15].  The mean 74 of 90 and the target
    59 is taken because it is within 15 degrees of the target, while it is
    16 degrees away from the last position. *)
Theorem slew_exceeds_max_step :
  fst (translateAZEL 31 0 (90, 0)) = 59 /\
  slew 90 59 (minAZperslot sketch_config) (maxAZperslot sketch_config) = 74 /\
  maxAZperslot sketch_config < Z.abs (74 - 90) /\
  last_AZservo_pos boot_state = 90 /\
  last_AZservo_pos
    (fst (fst (model_loop sketch_config boot_state (bytes "AZ31 EL0")))) = 74.
Proof. repeat split. Qed.

Section LoopReach.

Variable float : Type.
Variable parseFloat : list ascii -> float * list ascii.
Variable float_to_int : float -> Z.

(** The command parser assigns the request and the timer only. *)
Lemma drain_loop_servo_vars (fuel : nat) :
  forall s buf,
  let s' := fst (drain_loop float parseFloat float_to_int fuel s buf) in
  AZservo_pos s' = AZservo_pos s /\ ELservo_pos s' = ELservo_pos s /\
  last_AZservo_pos s' = last_AZservo_pos s /\
  last_ELservo_pos s' = last_ELservo_pos s.
Proof.
  induction fuel as [|fuel IH]; intros s buf; cbv zeta.
  - cbn. auto.
  - cbn [drain_loop]. destruct buf as [|c rest]; [cbn; auto|].
    destruct (Ascii.eqb c "A"); [|cbn; auto].
    unfold read_frame.
    destruct (parseFloat rest) as [f1 rest1].
    destruct (parseFloat rest1) as [f2 rest2].
    specialize (IH {| AZ := float_to_int f1;
                      EL := float_to_int f2;
                      AZservo_pos := AZservo_pos s;
                      ELservo_pos := ELservo_pos s;
                      last_AZservo_pos := last_AZservo_pos s;
                      last_ELservo_pos := last_ELservo_pos s;
                      reset_timer := 0 |} rest2).
    cbv zeta in IH. cbn [AZservo_pos ELservo_pos last_AZservo_pos
                         last_ELservo_pos] in IH. exact IH.
Qed.

(** Whatever arrives on the serial port, a call of [loop] keeps the servo
    variables in their ranges, so that no operation of the slew limiter
    overflows, and moves each servo by at most one degree more than its
    larger limit. *)
Lemma loop_in_reach (g : Config) (s : State) (buf : list ascii) :
  0 <= maxAZperslot g -> 0 <= maxELperslot g ->
  minAZperslot g <= maxAZperslot g + 1 ->
  minELperslot g <= maxELperslot g + 1 ->
  in_reach s ->
  let s' := fst (fst (loop float parseFloat float_to_int g s buf)) in
  in_reach s' /\
  Z.abs (last_AZservo_pos s' - last_AZservo_pos s) <= maxAZperslot g + 1 /\
  Z.abs (last_ELservo_pos s' - last_ELservo_pos s) <= maxELperslot g + 1.
Proof.
  intros Haz Hel Hmaz Hmel Hr. cbv zeta. unfold loop, drain.
  pose proof (drain_loop_servo_vars (List.length buf) s buf) as Hd.
  cbv zeta in Hd.
  destruct (drain_loop float parseFloat float_to_int (List.length buf) s buf)
    as [s1 buf1]. cbn [fst] in Hd. destruct Hd as (E1 & E2 & E3 & E4).
  assert (Hr1 : in_reach s1)
    by (unfold in_reach in *; rewrite E1, E2, E3, E4; exact Hr).
  pose proof (control_in_reach g s1 Haz Hel Hmaz Hmel Hr1) as Hc.
  cbv zeta in Hc. destruct (control g s1) as [s2 driven].
  cbn [fst] in *. rewrite E3, E4 in Hc. exact Hc.
Qed.

Lemma run_in_reach (g : Config) (arrivals : list (list ascii)) :
  forall s buf,
  0 <= maxAZperslot g -> 0 <= maxELperslot g ->
  minAZperslot g <= maxAZperslot g + 1 ->
  minELperslot g <= maxELperslot g + 1 ->
  in_reach s ->
  in_reach (fst (run float parseFloat float_to_int g s buf arrivals)).
Proof.
  induction arrivals as [|a later IH]; intros s buf Haz Hel Hmaz Hmel Hr.
  - exact Hr.
  - cbn [run].
    pose proof (loop_in_reach g s (buf ++ a) Haz Hel Hmaz Hmel Hr) as Hl.
    cbv zeta in Hl.
    destruct (loop float parseFloat float_to_int g s (buf ++ a))
      as [[s1 buf1] driven].
    cbn [fst] in Hl. apply IH; try assumption. apply Hl.
Qed.

End LoopReach.

Lemma boot_state_in_reach : in_reach boot_state.
Proof. unfold in_reach, servo_angle; cbn; lia. Qed.

(** ** Instances on concrete input *)

Lemma translateAZEL_quadrant_table_witness :
  translateAZEL 0 0 (90, 0) = (90, 0) /\
  translateAZEL 90 45 (90, 0) = (180, 135) /\
  translateAZEL 359 10 (90, 0) = (91, 10).
Proof.
  split; [|split].
  - rewrite (translateAZEL_quadrant_table 0 0 (90, 0)) by lia. reflexivity.
  - rewrite (translateAZEL_quadrant_table 90 45 (90, 0)) by lia. reflexivity.
  - rewrite (translateAZEL_quadrant_table 359 10 (90, 0)) by lia. reflexivity.
Defined.

Lemma translateAZEL_periodic_nonneg_witness :
  0 <= 90 /\
  translateAZEL (90 + 360) 0 (90, 0) = translateAZEL 90 0 (90, 0) /\
  translateAZEL 90 0 (90, 0) = (180, 180).
Proof.
  assert (H : 0 <= 90) by lia.
  split; [exact H|]. split; [|reflexivity].
  exact (translateAZEL_periodic_nonneg 90 0 (90, 0) H).
Defined.

Lemma translateAZEL_no_case_unchanged_witness :
  Z.rem (-100) 360 <= -90 /\ translateAZEL (-100) 45 (90, 0) = (90, 0).
Proof.
  assert (H : Z.rem (-100) 360 <= -90) by (vm_compute; discriminate).
  split; [exact H|].
  exact (proj1 (proj2 (translateAZEL_no_case_unchanged (-100) 45 (90, 0) H))).
Defined.

Lemma slew_defined_0_100 : slew_defined 0 100.
Proof. unfold slew_defined. int_range. Qed.

Lemma slew_defined_95_100 : slew_defined 95 100.
Proof. unfold slew_defined. int_range. Qed.

Lemma slew_defined_90_59 : slew_defined 90 59.
Proof. unfold slew_defined. int_range. Qed.

Lemma slew_implements_policy_witness :
  slew 0 100 3 15 = 15 /\ slew 95 100 3 15 = 97.
Proof.
  split.
  - rewrite (proj1 (slew_implements_policy 0 100 3 15
                      slew_defined_0_100 ltac:(lia))). reflexivity.
  - rewrite (proj1 (slew_implements_policy 95 100 3 15
                      slew_defined_95_100 ltac:(lia))). reflexivity.
Defined.

Lemma slew_change_bound_witness :
  Z.abs (slew 0 100 3 15 - 0) <= Z.max 15 (Z.abs (100 - 0)) /\
  (Z.abs (99 - 100) < 3 -> slew 99 100 3 15 = 100).
Proof.
  split.
  - exact (proj1 (slew_change_bound 0 100 3 15
                    slew_defined_0_100 ltac:(lia) ltac:(lia))).
  - apply (slew_change_bound 99 100 3 15); [|lia|lia].
    unfold slew_defined. int_range.
Defined.

Lemma slew_no_overshoot_witness :
  Z.min 90 59 <= slew 90 59 3 15 <= Z.max 90 59 /\
  servo_angle (slew 90 59 3 15).
Proof.
  destruct (slew_no_overshoot 90 59 3 15 slew_defined_90_59 ltac:(lia))
    as [Hb Hs].
  split; [exact Hb|].
  apply Hs; unfold servo_angle; lia.
Defined.

(** The frame of the protocol description is read as the request
    [123/45]. *)
Lemma drain_marker_witness :
  drain decimal parseFloat_model decimal_to_int boot_state
    ("A"%char :: bytes "Z123.4 EL45.6")
  = ({| AZ := 123; EL := 45;
        AZservo_pos := 90; ELservo_pos := 0;
        last_AZservo_pos := 90; last_ELservo_pos := 0;
        reset_timer := 0 |}, []) /\
  drain decimal parseFloat_model decimal_to_int boot_state
    ("Z"%char :: bytes "123.4 EL45.6")
  = (boot_state, bytes "123.4 EL45.6").
Proof.
  destruct (drain_marker decimal parseFloat_model decimal_to_int
              parseFloat_model_consumes boot_state "A"%char
              (bytes "Z123.4 EL45.6")) as [Hmark _].
  destruct (drain_marker decimal parseFloat_model decimal_to_int
              parseFloat_model_consumes boot_state "Z"%char
              (bytes "123.4 EL45.6")) as [_ Hother].
  split.
  - rewrite (Hmark eq_refl). reflexivity.
  - apply Hother. discriminate.
Defined.

(** After a command, 299 silent calls of [loop] leave the request alone
    and the 300th sends the antenna home. *)
Lemma watchdog_quiet_run_witness :
  (AZ after_command = 123 /\ EL after_command = 45 /\
   reset_timer after_command = 100) /\
  (let s' := fst (model_run sketch_config after_command [] (repeat [] 299)) in
   reset_timer s' = 30000 /\ AZ s' = 123 /\ EL s' = 45) /\
  (let s' := fst (model_run sketch_config after_command [] (repeat [] 300)) in
   reset_timer s' = 0 /\ AZ s' = 0 /\ EL s' = 0).
Proof.
  split; [vm_compute; auto|]. split.
  - apply (watchdog_quiet_run decimal parseFloat_model decimal_to_int
             sketch_config (repeat [] 299) after_command []);
      try (vm_compute; intuition discriminate); reflexivity.
  - apply (watchdog_quiet_run decimal parseFloat_model decimal_to_int
             sketch_config (repeat [] 300) after_command []);
      try (vm_compute; intuition discriminate); reflexivity.
Defined.

(** * Further properties of the sketch *)

(** ** translateAZEL: the four cases *)

Lemma translateAZEL_cases (az el : Z) (out : Z * Z) :
  let a := Z.rem az 360 in
  let e := Z.min (Z.rem el 360) 90 in
  (-90 < a < 90 /\ translateAZEL az el out = (90 - a, e)) \/
  (90 <= a < 270 /\ translateAZEL az el out = (270 - a, 180 - e)) \/
  (270 <= a < 360 /\ translateAZEL az el out = (450 - a, e)) \/
  (-360 < a <= -90 /\ translateAZEL az el out = out).
Proof.
  cbv zeta. rewrite translateAZEL_math. cbv zeta.
  assert (Ha : Z.abs (Z.rem az 360) < Z.abs 360)
    by (apply Z.rem_bound_abs; lia).
  set (a := Z.rem az 360) in *.
  set (e := Z.min (Z.rem el 360) 90).
  assert (Hq : Z.abs (90 * Z.quot a 90) <= Z.abs a
               /\ Z.abs (a - 90 * Z.quot a 90) < 90
               /\ 0 <= a * Z.quot a 90)
    by (Z.to_euclidean_division_equations; nia).
  destruct (Z.eqb_spec (Z.quot a 90) 0); [left; split; [lia|reflexivity]|].
  destruct (Z.eqb_spec (Z.quot a 90) 1);
    [right; left; split; [lia|reflexivity]|].
  destruct (Z.eqb_spec (Z.quot a 90) 2);
    [right; left; split; [lia|reflexivity]|].
  destruct (Z.eqb_spec (Z.quot a 90) 3);
    [right; right; left; split; [lia|reflexivity]|].
  right; right; right. split; [nia|reflexivity].
Qed.

(** [X1] For a request that is not negative the azimuth servo target lies
    in [[1,180]], and the elevation servo target tells the side: it is
    the elevation itself (at most 90) when the azimuth, reduced to one
    turn, is below 90 or from 270 on, and 180 minus the elevation (at
    least 90) when it is from 90 to below 270. *)
Theorem translateAZEL_flip_side (az el : Z) (out : Z * Z) :
  0 <= az -> 0 <= el ->
  let a := az mod 360 in
  let e := Z.min (el mod 360) 90 in
  1 <= fst (translateAZEL az el out) <= 180 /\
  (a < 90 \/ 270 <= a -> snd (translateAZEL az el out) = e /\ 0 <= e <= 90) /\
  (90 <= a < 270 ->
   snd (translateAZEL az el out) = 180 - e /\ 90 <= 180 - e <= 180).
Proof.
  intros Haz Hel. cbv zeta.
  rewrite <- !Z.rem_mod_nonneg by lia.
  assert (Ha : 0 <= Z.rem az 360 < 360) by (apply Z.rem_bound_pos; lia).
  assert (He : 0 <= Z.rem el 360 < 360) by (apply Z.rem_bound_pos; lia).
  destruct (translateAZEL_cases az el out)
    as [[H ->] | [[H ->] | [[H ->] | [H _]]]]; cbn [fst snd]; lia.
Qed.

(** [X2] Below the zenith no two requests of one turn share their servo
    targets: the mapping is injective on azimuths in [[0,359]] and
    elevations in [[0,89]]. *)
Theorem translateAZEL_injective (az1 el1 az2 el2 : Z) (out1 out2 : Z * Z) :
  0 <= az1 <= 359 -> 0 <= el1 <= 89 ->
  0 <= az2 <= 359 -> 0 <= el2 <= 89 ->
  translateAZEL az1 el1 out1 = translateAZEL az2 el2 out2 ->
  az1 = az2 /\ el1 = el2.
Proof.
  intros Ha1 He1 Ha2 He2.
  pose proof (translateAZEL_cases az1 el1 out1) as C1.
  pose proof (translateAZEL_cases az2 el2 out2) as C2.
  cbv zeta in C1, C2. rewrite !Z.rem_small in C1, C2 by lia.
  rewrite !Z.min_l in C1, C2 by lia.
  destruct C1 as [[H1 ->] | [[H1 ->] | [[H1 ->] | [H1 _]]]]; [| | |lia];
    destruct C2 as [[H2 ->] | [[H2 ->] | [[H2 ->] | [H2 _]]]]; try lia;
    intros E; pose proof (f_equal fst E) as E1;
    pose proof (f_equal snd E) as E2; cbn [fst snd] in E1, E2; lia.
Qed.

(** At the zenith the side is lost: north and south share the targets. *)
Lemma translateAZEL_zenith :
  translateAZEL 0 90 (90, 0) = translateAZEL 180 90 (90, 0).
Proof. reflexivity. Qed.

(** ** The slew limiter over several calls *)

Lemma half_int_slew_defined (last pos : Z) :
  half_int last -> half_int pos -> slew_defined last pos.
Proof. unfold half_int, slew_defined. intros; int_range. Qed.

Lemma step_policy_closer (l t mn mx : Z) :
  2 <= mn -> 1 <= mx -> l <> t ->
  Z.abs (step_policy l t mn mx - t) < Z.abs (l - t).
Proof.
  intros Hmn Hmx Hne. unfold step_policy.
  destruct (Z.ltb_spec (Z.abs (l - t)) mn) as [Hs|Hs]; [lia|].
  assert (Hc : Z.abs (Z.quot (l + t) 2 - t) < Z.abs (l - t)
               /\ Z.min l t <= Z.quot (l + t) 2 <= Z.max l t)
    by (Z.to_euclidean_division_equations; lia).
  set (c := Z.quot (l + t) 2) in *.
  destruct (Z.leb_spec (Z.abs (c - t)) mx); [lia|].
  destruct (Z.ltb_spec l t); lia.
Qed.

Lemma step_policy_fixed (t mn mx : Z) :
  0 <= mx -> step_policy t t mn mx = t.
Proof.
  intros Hmx. unfold step_policy.
  destruct (Z.ltb_spec (Z.abs (t - t)) mn); [reflexivity|].
  assert (Hc : Z.quot (t + t) 2 = t)
    by (Z.to_euclidean_division_equations; lia).
  rewrite Hc. destruct (Z.leb_spec (Z.abs (t - t)) mx); [reflexivity|lia].
Qed.

Lemma slew_iter_policy_reaches (n : nat) :
  forall l t mn mx,
  half_int l -> half_int t -> 2 <= mn -> 1 <= mx ->
  Z.abs (l - t) <= Z.of_nat n ->
  slew_iter n l t mn mx = t.
Proof.
  induction n as [|n IH]; intros l t mn mx Hl Ht Hmn Hmx Hd.
  - cbn [slew_iter]. lia.
  - cbn [slew_iter].
    assert (Hmx0 : 0 <= mx) by lia.
    rewrite (slew_eq_policy l t mn mx (half_int_slew_defined l t Hl Ht) Hmx0).
    pose proof (step_policy_between l t mn mx Hmx0) as Hb.
    apply IH; try assumption; [unfold half_int in *; lia|].
    destruct (Z.eq_dec l t) as [->|Hne].
    + rewrite step_policy_fixed by assumption. lia.
    + pose proof (step_policy_closer l t mn mx Hmn Hmx Hne). lia.
Qed.

(** [X3] With a smaller limit of at least 2 and a larger limit of at
    least 1, every call of the slew limiter brings the servo strictly
    closer to a target it has not reached, a servo on its target stays
    there, and so the target is reached after at most as many calls as
    there are degrees to go. *)
Theorem slew_converges (last pos minper maxper : Z) :
  half_int last -> half_int pos -> 2 <= minper -> 1 <= maxper ->
  (last <> pos ->
   Z.abs (slew last pos minper maxper - pos) < Z.abs (last - pos)) /\
  slew pos pos minper maxper = pos /\
  (forall n : nat,
     Z.abs (last - pos) <= Z.of_nat n ->
     slew_iter n last pos minper maxper = pos).
Proof.
  intros Hl Ht Hmn Hmx. assert (Hmx0 : 0 <= maxper) by lia.
  split; [|split].
  - intros Hne.
    rewrite (slew_eq_policy _ _ minper _
               (half_int_slew_defined _ _ Hl Ht) Hmx0).
    now apply step_policy_closer.
  - rewrite (slew_eq_policy _ _ minper _
               (half_int_slew_defined _ _ Ht Ht) Hmx0).
    now apply step_policy_fixed.
  - intros n Hn. now apply slew_iter_policy_reaches.
Qed.

(** [X4] With a smaller limit of 1 or less the slew limiter stalls one
    degree below a target: the truncated mean of [last] and [last + 1] is
    [last] itself, it is within the larger limit of the target and is
    taken as the new position. *)
Theorem slew_stalls_below (last minper maxper : Z) :
  0 <= last <= 16382 -> minper <= 1 <= maxper ->
  slew last (last + 1) minper maxper = last /\
  (forall n : nat, slew_iter n last (last + 1) minper maxper = last).
Proof.
  intros Hl Hlim.
  assert (Hstep : slew last (last + 1) minper maxper = last).
  { rewrite slew_eq_policy;
      [|apply half_int_slew_defined; unfold half_int; lia | lia].
    unfold step_policy.
    destruct (Z.ltb_spec (Z.abs (last - (last + 1))) minper); [lia|].
    assert (Hc : Z.quot (last + (last + 1)) 2 = last)
      by (Z.to_euclidean_division_equations; lia).
    rewrite Hc.
    destruct (Z.leb_spec (Z.abs (last - (last + 1))) maxper);
      [reflexivity|lia]. }
  split; [exact Hstep|].
  induction n as [|n IH]; cbn [slew_iter]; [reflexivity|].
  rewrite Hstep. exact IH.
Qed.

(** ** The settling time with the limits of the sketch *)

Lemma slew_servo_angle (last pos minper maxper : Z) :
  servo_angle last -> servo_angle pos -> 0 <= maxper ->
  servo_angle (slew last pos minper maxper).
Proof.
  intros Hl Hp Hmx.
  rewrite (slew_eq_policy _ _ minper _ (slew_defined_servo _ _ Hl Hp) Hmx).
  pose proof (step_policy_between last pos minper maxper Hmx).
  unfold servo_angle in *. lia.
Qed.


Lemma step_policy_settle (l t : Z) :
  Z.abs (step_policy l t 3 15 - t) <= settle_bound (Z.abs (l - t)).
Proof.
  unfold step_policy, settle_bound.
  assert (Hc : Z.abs (Z.quot (l + t) 2 - t) <= (Z.abs (l - t) + 1) / 2
               /\ Z.min l t <= Z.quot (l + t) 2 <= Z.max l t)
    by (Z.to_euclidean_division_equations; lia).
  assert (Hh : 2 * ((Z.abs (l - t) + 1) / 2) <= Z.abs (l - t) + 1)
    by (Z.to_euclidean_division_equations; lia).
  set (c := Z.quot (l + t) 2) in *.
  set (h := (Z.abs (l - t) + 1) / 2) in *.
  destruct (Z.ltb_spec (Z.abs (l - t)) 3); [lia|].
  destruct (Z.leb_spec (Z.abs (c - t)) 15);
    destruct (Z.leb_spec (Z.abs (l - t)) 30); try lia;
    destruct (Z.ltb_spec l t); lia.
Qed.

Lemma settle_bound_mono (d1 d2 : Z) :
  0 <= d1 <= d2 -> 0 <= settle_bound d1 <= settle_bound d2.
Proof.
  intros Hd. unfold settle_bound.
  assert (H1 : 0 <= (d1 + 1) / 2 <= (d2 + 1) / 2
               /\ 2 * ((d1 + 1) / 2) <= d1 + 1)
    by (Z.to_euclidean_division_equations; lia).
  destruct (Z.ltb_spec d1 3), (Z.ltb_spec d2 3),
    (Z.leb_spec d1 30), (Z.leb_spec d2 30); lia.
Qed.

Lemma settle_bound_iter_mono (n : nat) :
  forall d1 d2,
  0 <= d1 <= d2 -> 0 <= settle_bound_iter n d1 <= settle_bound_iter n d2.
Proof.
  induction n as [|n IH]; intros d1 d2 Hd; cbn [settle_bound_iter];
    [exact Hd|].
  apply IH. now apply settle_bound_mono.
Qed.

Lemma slew_iter_distance (n : nat) :
  forall l t,
  servo_angle l -> servo_angle t ->
  Z.abs (slew_iter n l t 3 15 - t) <= settle_bound_iter n (Z.abs (l - t)).
Proof.
  induction n as [|n IH]; intros l t Hl Ht;
    cbn [slew_iter settle_bound_iter]; [lia|].
  assert (Hs : servo_angle (slew l t 3 15))
    by (apply slew_servo_angle; [assumption | assumption | lia]).
  specialize (IH (slew l t 3 15) t Hs Ht).
  assert (Hd : Z.abs (slew l t 3 15 - t) <= settle_bound (Z.abs (l - t))).
  { rewrite (slew_eq_policy l t 3 15 (slew_defined_servo l t Hl Ht))
      by lia.
    apply step_policy_settle. }
  pose proof (settle_bound_iter_mono n _ _
                (conj (Z.abs_nonneg (slew l t 3 15 - t)) Hd)).
  lia.
Qed.

Lemma slew_iter_settles_15 (l t : Z) :
  servo_angle l -> servo_angle t -> slew_iter 15 l t 3 15 = t.
Proof.
  intros Hl Ht.
  pose proof (slew_iter_distance 15 l t Hl Ht) as Hd.
  assert (H180 : 0 <= Z.abs (l - t) <= 180)
    by (unfold servo_angle in *; lia).
  pose proof (settle_bound_iter_mono 15 _ _ H180) as Hm.
  change (settle_bound_iter 15 180) with 0 in Hm. lia.
Qed.

Lemma slew_iter_add (n m : nat) :
  forall l t mn mx,
  slew_iter (n + m) l t mn mx = slew_iter m (slew_iter n l t mn mx) t mn mx.
Proof.
  induction n as [|n IH]; intros l t mn mx; cbn [slew_iter Nat.add];
    [reflexivity|apply IH].
Qed.

Lemma slew_iter_fixed (n : nat) (t mn mx : Z) :
  half_int t -> 0 <= mx -> slew_iter n t t mn mx = t.
Proof.
  intros Ht Hmx. induction n as [|n IH]; cbn [slew_iter]; [reflexivity|].
  rewrite (slew_eq_policy t t mn mx (half_int_slew_defined t t Ht Ht) Hmx).
  rewrite step_policy_fixed by assumption. exact IH.
Qed.

Lemma slew_iter_settled (n : nat) (l t : Z) :
  servo_angle l -> servo_angle t -> (15 <= n)%nat ->
  slew_iter n l t 3 15 = t.
Proof.
  intros Hl Ht Hn. replace n with (15 + (n - 15))%nat by lia.
  rewrite slew_iter_add, (slew_iter_settles_15 l t Hl Ht).
  apply slew_iter_fixed; [unfold servo_angle, half_int in *; lia | lia].
Qed.

(** [X5] With the limits 3 and 15 of the sketch, 15 calls of [loop]
    bring a servo from any servo angle to any target servo angle, where it
    stays; 14 calls are not enough for the half turn from 0 to 180. *)
Theorem slew_settles_in_15 (n : nat) (last pos : Z) :
  servo_angle last -> servo_angle pos -> (15 <= n)%nat ->
  slew_iter n last pos 3 15 = pos /\
  slew_iter 14 0 180 3 15 = 178.
Proof.
  intros Hl Ht Hn. split; [now apply slew_iter_settled|reflexivity].
Qed.

(** ** Calls of [loop] that recognise no command *)

Lemma translateAZEL_idempotent (az el : Z) (out : Z * Z) :
  translateAZEL az el (translateAZEL az el out) = translateAZEL az el out.
Proof.
  pose proof (translateAZEL_cases az el out) as C1.
  pose proof (translateAZEL_cases az el (translateAZEL az el out)) as C2.
  cbv zeta in C1, C2.
  destruct C2 as [[H2 E2] | [[H2 E2] | [[H2 E2] | [H2 E2]]]];
    [| | |exact E2];
    destruct C1 as [[H1 E1] | [[H1 E1] | [[H1 E1] | [H1 E1]]]];
    try lia; congruence.
Qed.

(** The state left by the statements behind the [while], field by
    field. *)
Lemma control_fields (g : Config) (s : State) :
  let T := translateAZEL (AZ s) (EL s) (AZservo_pos s, ELservo_pos s) in
  let s' := fst (control g s) in
  AZservo_pos s' = fst T /\ ELservo_pos s' = snd T /\
  last_AZservo_pos s'
  = slew (last_AZservo_pos s) (fst T) (minAZperslot g) (maxAZperslot g) /\
  last_ELservo_pos s'
  = slew (last_ELservo_pos s) (snd T) (minELperslot g) (maxELperslot g) /\
  snd (control g s)
  = (driveAZ g (last_AZservo_pos s'), driveEL g (last_ELservo_pos s')) /\
  (AZ s' = AZ s /\ EL s' = EL s \/ AZ s' = 0 /\ EL s' = 0).
Proof.
  cbv zeta. unfold control.
  destruct (translateAZEL (AZ s) (EL s) (AZservo_pos s, ELservo_pos s))
    as [azp elp].
  destruct (add (reset_timer s) (slot_time_ms g) >? reset_limit_ms g);
    cbn; auto 10.
Qed.

(** While the timer does not fire, silent calls keep the request, aim at
    the targets of the request and move each axis by the slew limiter. *)
Lemma idle_no_fire (g : Config) (n : nat) :
  forall s : State,
  0 < slot_time_ms g -> reset_limit_ms g <= int_max ->
  0 <= reset_timer s ->
  reset_timer s + Z.of_nat n * slot_time_ms g <= reset_limit_ms g ->
  let T := translateAZEL (AZ s) (EL s) (AZservo_pos s, ELservo_pos s) in
  let s' := idle g n s in
  AZ s' = AZ s /\ EL s' = EL s /\
  reset_timer s' = reset_timer s + Z.of_nat n * slot_time_ms g /\
  ((1 <= n)%nat -> AZservo_pos s' = fst T /\ ELservo_pos s' = snd T) /\
  last_AZservo_pos s'
  = slew_iter n (last_AZservo_pos s) (fst T)
      (minAZperslot g) (maxAZperslot g) /\
  last_ELservo_pos s'
  = slew_iter n (last_ELservo_pos s) (snd T)
      (minELperslot g) (maxELperslot g).
Proof.
  induction n as [|n IH]; intros s Hslot Hlim Ht Hn; cbv zeta.
  - cbn [idle slew_iter]. repeat split; try lia.
  - cbn [idle slew_iter].
    pose proof (control_fields g s) as (F1 & F2 & F3 & F4 & _ & _).
    pose proof (control_timer g s) as [_ Hcount]. cbv zeta in Hcount.
    assert (Hadd : add (reset_timer s) (slot_time_ms g)
                   = reset_timer s + slot_time_ms g)
      by (apply wrap_small; int_range).
    rewrite Hadd in Hcount.
    destruct (Hcount ltac:(nia)) as (E1 & E2 & E3).
    set (s1 := fst (control g s)) in *.
    specialize (IH s1 Hslot Hlim ltac:(lia) ltac:(lia)). cbv zeta in IH.
    rewrite E1, E2, E3, F1, F2, F3, F4 in IH.
    rewrite <- surjective_pairing, translateAZEL_idempotent in IH.
    destruct IH as (I1 & I2 & I3 & I4 & I5 & I6).
    repeat split; try assumption; try lia.
    + destruct n; [cbn [idle]; assumption | apply I4; lia].
    + destruct n; [cbn [idle]; assumption | apply I4; lia].
Qed.

(** Silent calls with the request [0/0] keep it, whether the timer fires
    or not, and move both axes towards the pose of [setup]. *)
Lemma idle_home (g : Config) (n : nat) :
  forall s : State,
  AZ s = 0 -> EL s = 0 ->
  let s' := idle g n s in
  AZ s' = 0 /\ EL s' = 0 /\
  last_AZservo_pos s'
  = slew_iter n (last_AZservo_pos s) 90 (minAZperslot g) (maxAZperslot g) /\
  last_ELservo_pos s'
  = slew_iter n (last_ELservo_pos s) 0 (minELperslot g) (maxELperslot g).
Proof.
  induction n as [|n IH]; intros s Ha He; cbv zeta.
  - cbn [idle slew_iter]. auto.
  - cbn [idle slew_iter].
    pose proof (control_fields g s) as (_ & _ & F3 & F4 & _ & F6).
    rewrite Ha, He in F3, F4, F6. cbn [fst snd] in F3, F4.
    change (fst (translateAZEL 0 0 (AZservo_pos s, ELservo_pos s)))
      with 90 in F3.
    change (snd (translateAZEL 0 0 (AZservo_pos s, ELservo_pos s)))
      with 0 in F4.
    assert (Hreq : AZ (fst (control g s)) = 0 /\ EL (fst (control g s)) = 0)
      by (destruct F6 as [[? ?]|[? ?]]; auto).
    destruct Hreq as [Ha1 He1].
    specialize (IH (fst (control g s)) Ha1 He1). cbv zeta in IH.
    rewrite F3, F4 in IH. exact IH.
Qed.

Section LoopFacts.

Variable float : Type.
Variable parseFloat : list ascii -> float * list ascii.
Variable float_to_int : float -> Z.

Local Abbreviation drain_loop' := (drain_loop float parseFloat float_to_int).
Local Abbreviation drain' := (drain float parseFloat float_to_int).
Local Abbreviation loop' := (loop float parseFloat float_to_int).
Local Abbreviation run' := (run float parseFloat float_to_int).
Local Abbreviation quiet_run' := (quiet_run float parseFloat float_to_int).

(** A run of calls that recognise no command depends on their number
    only. *)
Lemma quiet_run_idle (g : Config) (arrivals : list (list ascii)) :
  forall s buf,
  quiet_run' g s buf arrivals = true ->
  fst (run' g s buf arrivals) = idle g (List.length arrivals) s.
Proof.
  induction arrivals as [|a later IH]; intros s buf Hq; [reflexivity|].
  cbn [quiet_run run List.length idle] in *.
  apply andb_prop in Hq as [Hq1 Hq2].
  pose proof (loop_quiet float parseFloat float_to_int g s (buf ++ a) Hq1)
    as Hl.
  destruct (loop' g s (buf ++ a)) as [[s1 buf1] driven].
  cbn [fst] in Hl. subst s1. now apply IH.
Qed.

(** [X6] Bytes other than ['A'] in front of a command are thrown away one
    per call of [loop]: with [k] such bytes pending and nothing arriving,
    the next [k] calls each remove one of them, recognise nothing, and
    leave what follows the junk pending. *)
Theorem junk_one_per_call (g : Config) (junk : list ascii) :
  forall (s : State) (rest : list ascii),
  Forall (fun c => c <> "A"%char) junk ->
  run' g s (junk ++ rest) (repeat [] (List.length junk))
  = (idle g (List.length junk) s, rest).
Proof.
  induction junk as [|c junk IH]; intros s rest Hj; [reflexivity|].
  inversion Hj as [|c' junk' Hc Hj']; subst.
  cbn [List.length repeat run idle]. rewrite app_nil_r.
  unfold loop, drain. cbn [app List.length drain_loop].
  destruct (Ascii.eqb_spec c "A"); [contradiction|].
  destruct (control g s) as [s2 driven]. cbn [fst].
  now apply IH.
Qed.

(** The parser assigns to the timer the value 0 or nothing. *)
Lemma drain_loop_timer (fuel : nat) :
  forall s buf,
  let s' := fst (drain_loop' fuel s buf) in
  reset_timer s' = reset_timer s \/ reset_timer s' = 0.
Proof.
  induction fuel as [|fuel IH]; intros s buf; cbv zeta; [cbn; auto|].
  cbn [drain_loop]. destruct buf as [|c rest]; [cbn; auto|].
  destruct (Ascii.eqb c "A"); [|cbn; auto].
  unfold read_frame.
  destruct (parseFloat rest) as [f1 rest1].
  destruct (parseFloat rest1) as [f2 rest2].
  match goal with
  | |- context [drain_loop' fuel ?s1 rest2] =>
      destruct (IH s1 rest2) as [H|H]; cbn [reset_timer] in H; auto
  end.
Qed.

Lemma loop_timer (g : Config) (s : State) (buf : list ascii) :
  0 < slot_time_ms g ->
  reset_limit_ms g + slot_time_ms g <= int_max ->
  0 <= reset_timer s <= reset_limit_ms g ->
  0 <= reset_timer (fst (fst (loop' g s buf))) <= reset_limit_ms g.
Proof.
  intros Hslot Hlim Ht. unfold loop, drain.
  pose proof (drain_loop_timer (List.length buf) s buf) as Hd.
  cbv zeta in Hd.
  destruct (drain_loop' (List.length buf) s buf) as [s1 buf1].
  cbn [fst] in Hd.
  pose proof (control_timer g s1) as [Hfire Hcount]. cbv zeta in *.
  assert (Hadd : add (reset_timer s1) (slot_time_ms g)
                 = reset_timer s1 + slot_time_ms g)
    by (apply wrap_small; int_range).
  rewrite Hadd in *.
  destruct (control g s1) as [s2 driven]. cbn [fst] in *.
  destruct (Z.le_gt_cases (reset_timer s1 + slot_time_ms g)
              (reset_limit_ms g)) as [Hle|Hgt].
  - destruct (Hcount Hle) as (E & _). lia.
  - destruct (Hfire Hgt) as (E & _). lia.
Qed.

(** [X7] Whatever arrives on the serial port, the timer stays between 0
    and [reset_limit_ms] from one call of [loop] to the next, so the
    addition of line 194 never overflows. *)
Theorem timer_within_limit (g : Config) (arrivals : list (list ascii)) :
  forall (s : State) (buf : list ascii),
  0 < slot_time_ms g ->
  reset_limit_ms g + slot_time_ms g <= int_max ->
  0 <= reset_timer s <= reset_limit_ms g ->
  let s' := fst (run' g s buf arrivals) in
  0 <= reset_timer s' <= reset_limit_ms g /\
  in_int (reset_timer s' + slot_time_ms g).
Proof.
  induction arrivals as [|a later IH]; intros s buf Hslot Hlim Ht; cbv zeta.
  - cbn [run fst]. split; [assumption|int_range].
  - cbn [run].
    pose proof (loop_timer g s (buf ++ a) Hslot Hlim Ht) as Hl.
    destruct (loop' g s (buf ++ a)) as [[s1 buf1] driven].
    cbn [fst] in Hl. now apply IH.
Qed.

(** What the parser leaves in the request, in the timer and on the port
    does not depend on the servo variables. *)
Lemma drain_loop_forgets (fuel : nat) :
  forall s1 s2 buf,
  AZ s1 = AZ s2 -> EL s1 = EL s2 -> reset_timer s1 = reset_timer s2 ->
  let r1 := drain_loop' fuel s1 buf in
  let r2 := drain_loop' fuel s2 buf in
  AZ (fst r1) = AZ (fst r2) /\ EL (fst r1) = EL (fst r2) /\
  reset_timer (fst r1) = reset_timer (fst r2) /\ snd r1 = snd r2.
Proof.
  induction fuel as [|fuel IH]; intros s1 s2 buf Ha He Ht; cbv zeta;
    [cbn; auto|].
  cbn [drain_loop]. destruct buf as [|c rest]; [cbn; auto|].
  destruct (Ascii.eqb c "A"); [|cbn; auto].
  unfold read_frame.
  destruct (parseFloat rest) as [f1 rest1].
  destruct (parseFloat rest1) as [f2 rest2].
  apply IH; reflexivity.
Qed.

(** [X8] A call of [loop] that finds ['A'] first ends with the timer at
    one slot and with the request that the parser read: the timer cannot
    fire in that call.  The request, the timer and the input left pending
    are the same from every earlier state: a command replaces the former
    request altogether. *)
Theorem command_call (g : Config) (s : State) (rest : list ascii) :
  0 < slot_time_ms g <= reset_limit_ms g ->
  reset_limit_ms g <= int_max ->
  let r := loop' g s ("A"%char :: rest) in
  reset_timer (fst (drain' s ("A"%char :: rest))) = 0 /\
  reset_timer (fst (fst r)) = slot_time_ms g /\
  AZ (fst (fst r)) = AZ (fst (drain' s ("A"%char :: rest))) /\
  EL (fst (fst r)) = EL (fst (drain' s ("A"%char :: rest))) /\
  (forall s2 : State,
     let r2 := loop' g s2 ("A"%char :: rest) in
     AZ (fst (fst r2)) = AZ (fst (fst r)) /\
     EL (fst (fst r2)) = EL (fst (fst r)) /\
     reset_timer (fst (fst r2)) = reset_timer (fst (fst r)) /\
     snd (fst r2) = snd (fst r)).
Proof.
  intros Hslot Hlim. cbv zeta.
  assert (Hzero : forall s0,
             reset_timer (fst (drain' s0 ("A"%char :: rest))) = 0).
  { intros s0. unfold drain. cbn [List.length drain_loop].
    rewrite Ascii.eqb_refl. unfold read_frame.
    destruct (parseFloat rest) as [f1 rest1].
    destruct (parseFloat rest1) as [f2 rest2].
    match goal with
    | |- context [drain_loop' ?fuel ?s1 rest2] =>
        destruct (drain_loop_timer fuel s1 rest2) as [H|H];
          cbn [reset_timer] in H; exact H
    end. }
  assert (Hafter : forall s0,
             let d := drain' s0 ("A"%char :: rest) in
             let r0 := loop' g s0 ("A"%char :: rest) in
             reset_timer (fst (fst r0)) = slot_time_ms g /\
             AZ (fst (fst r0)) = AZ (fst d) /\
             EL (fst (fst r0)) = EL (fst d) /\ snd (fst r0) = snd d).
  { intros s0. cbv zeta. unfold loop. specialize (Hzero s0).
    destruct (drain' s0 ("A"%char :: rest)) as [s1 buf1]. cbn [fst snd] in *.
    pose proof (control_timer g s1) as [_ Hcount]. cbv zeta in Hcount.
    rewrite Hzero in Hcount.
    assert (Hadd : add 0 (slot_time_ms g) = slot_time_ms g)
      by (apply wrap_small; int_range).
    rewrite Hadd in Hcount.
    destruct (control g s1) as [s2 driven]. cbn [fst snd] in *.
    destruct (Hcount ltac:(lia)) as (E1 & E2 & E3). auto. }
  split; [apply Hzero|].
  destruct (Hafter s) as (A1 & A2 & A3 & A4). cbv zeta in *.
  split; [exact A1|]. split; [exact A2|]. split; [exact A3|].
  intros s2. destruct (Hafter s2) as (B1 & B2 & B3 & B4).
  assert (Hf : let d1 := drain' s2 ("A"%char :: rest) in
               let d2 := drain' s ("A"%char :: rest) in
               AZ (fst d1) = AZ (fst d2) /\ EL (fst d1) = EL (fst d2) /\
               reset_timer (fst d1) = reset_timer (fst d2) /\
               snd d1 = snd d2).
  { cbv zeta. unfold drain. cbn [List.length drain_loop].
    rewrite Ascii.eqb_refl. unfold read_frame.
    destruct (parseFloat rest) as [f1 rest1].
    destruct (parseFloat rest1) as [f2 rest2].
    apply drain_loop_forgets; reflexivity. }
  cbv zeta in Hf. destruct Hf as (F1 & F2 & F3 & F4).
  repeat split; congruence.
Qed.

End LoopFacts.

(** ** What the servos are told *)

Lemma drive_servo_angle (g : Config) (a : Z) :
  servo_angle a ->
  servo_angle (driveAZ g a) /\ servo_angle (driveEL g a).
Proof.
  unfold servo_angle, driveAZ, driveEL, sub. intros Ha.
  rewrite wrap_small by int_range.
  destruct (AZservo_zero_is_min g), (ELservo_zero_is_min g); lia.
Qed.

Section LoopServo.

Variable float : Type.
Variable parseFloat : list ascii -> float * list ascii.
Variable float_to_int : float -> Z.

Local Abbreviation drain' := (drain float parseFloat float_to_int).
Local Abbreviation loop' := (loop float parseFloat float_to_int).
Local Abbreviation run' := (run float parseFloat float_to_int).
Local Abbreviation quiet_run' := (quiet_run float parseFloat float_to_int).

(** [X9] When the servo variables hold servo angles and the request left
    by the parser is not negative, a call of [loop] writes an angle in
    [[0,180]] to each servo and leaves servo angles in the servo
    variables. *)
Theorem loop_drives_servo_angles (g : Config) (s : State)
  (buf : list ascii) :
  servo_vars s -> 0 <= maxAZperslot g -> 0 <= maxELperslot g ->
  0 <= AZ (fst (drain' s buf)) -> 0 <= EL (fst (drain' s buf)) ->
  let r := loop' g s buf in
  servo_vars (fst (fst r)) /\
  servo_angle (fst (snd r)) /\ servo_angle (snd (snd r)).
Proof.
  intros (V1 & V2 & V3 & V4) Haz Hel Hra Hre. cbv zeta.
  unfold loop, drain in *.
  pose proof (drain_loop_servo_vars float parseFloat float_to_int
                (List.length buf) s buf) as Hd. cbv zeta in Hd.
  destruct (drain_loop float parseFloat float_to_int (List.length buf) s buf)
    as [s1 buf1]. cbn [fst] in *. destruct Hd as (E1 & E2 & E3 & E4).
  pose proof (control_fields g s1) as (F1 & F2 & F3 & F4 & F5 & _).
  pose proof (translateAZEL_servo_angles (AZ s1) (EL s1)
                (AZservo_pos s1, ELservo_pos s1) Hra Hre) as [T1 T2].
  destruct (control g s1) as [s2 driven]. cbn [fst snd] in *.
  assert (L1 : servo_angle (last_AZservo_pos s2))
    by (rewrite F3; apply slew_servo_angle; congruence).
  assert (L2 : servo_angle (last_ELservo_pos s2))
    by (rewrite F4; apply slew_servo_angle; congruence).
  subst driven. cbn [fst snd].
  split; [unfold servo_vars; rewrite F1, F2; auto|].
  split; [apply (drive_servo_angle g _ L1) | apply (drive_servo_angle g _ L2)].
Qed.

(** [X10] From the state left by [setup], whatever arrives on the serial
    port and whatever the reader makes of it, the servo variables stay in
    their ranges, the azimuth servo is told a servo angle, and a call of
    [loop] moves neither servo by more than one degree above its larger
    limit. *)
Theorem reachable_rate_limit (g : Config) (arrivals : list (list ascii))
  (buf : list ascii) :
  0 <= maxAZperslot g -> 0 <= maxELperslot g ->
  minAZperslot g <= maxAZperslot g + 1 ->
  minELperslot g <= maxELperslot g + 1 ->
  let s := fst (run' g boot_state [] arrivals) in
  let r := loop' g s buf in
  in_reach s /\
  Z.abs (last_AZservo_pos (fst (fst r)) - last_AZservo_pos s)
    <= maxAZperslot g + 1 /\
  Z.abs (last_ELservo_pos (fst (fst r)) - last_ELservo_pos s)
    <= maxELperslot g + 1 /\
  servo_angle (fst (snd r)).
Proof.
  intros Haz Hel Hmaz Hmel. cbv zeta.
  pose proof (run_in_reach float parseFloat float_to_int g arrivals
                boot_state [] Haz Hel Hmaz Hmel boot_state_in_reach) as Hr.
  set (s := fst (run' g boot_state [] arrivals)) in *.
  pose proof (loop_in_reach float parseFloat float_to_int g s buf
                Haz Hel Hmaz Hmel Hr) as (R & C1 & C2). cbv zeta in *.
  split; [exact Hr|]. split; [exact C1|]. split; [exact C2|].
  destruct R as (_ & R2 & _).
  unfold loop in *. destruct (drain' s buf) as [s1 buf1].
  pose proof (control_fields g s1) as (_ & _ & _ & _ & F5 & _).
  destruct (control g s1) as [s2 driven]. cbn [fst snd] in *.
  subst driven. cbn [fst]. apply (drive_servo_angle g _ R2).
Qed.

(** [X11] With the limits and the timer of the sketch: after a request
    that is not negative, 15 or more calls of [loop] that recognise no
    command and end before the timer fires leave both servos on the
    targets of the request, which are servo angles, and keep the
    request. *)
Theorem track_after_quiet_calls (arrivals : list (list ascii)) (s : State)
  (buf : list ascii) :
  quiet_run' sketch_config s buf arrivals = true ->
  (15 <= List.length arrivals)%nat ->
  0 <= AZ s -> 0 <= EL s ->
  servo_angle (last_AZservo_pos s) -> servo_angle (last_ELservo_pos s) ->
  0 <= reset_timer s ->
  reset_timer s + Z.of_nat (List.length arrivals) * 100 <= 30000 ->
  let T := translateAZEL (AZ s) (EL s) (AZservo_pos s, ELservo_pos s) in
  let s' := fst (run' sketch_config s buf arrivals) in
  AZ s' = AZ s /\ EL s' = EL s /\
  last_AZservo_pos s' = fst T /\ last_ELservo_pos s' = snd T /\
  servo_angle (fst T) /\ servo_angle (snd T).
Proof.
  intros Hq Hn Ha He Hl1 Hl2 Ht Hlim. cbv zeta.
  rewrite (quiet_run_idle float parseFloat float_to_int _ _ _ _ Hq).
  pose proof (translateAZEL_servo_angles (AZ s) (EL s)
                (AZservo_pos s, ELservo_pos s) Ha He) as [T1 T2].
  pose proof (idle_no_fire sketch_config (List.length arrivals) s) as H.
  cbv zeta in H. cbn [slot_time_ms reset_limit_ms sketch_config
                      minAZperslot maxAZperslot minELperslot maxELperslot]
    in H.
  destruct (H ltac:(lia) ltac:(unfold int_max; lia) Ht Hlim)
    as (I1 & I2 & _ & _ & I5 & I6).
  rewrite I5, I6, !slew_iter_settled by assumption. auto 10.
Qed.

(** [X12] With the limits of the sketch: once the request is [0/0], as
    after [setup] and after the timer has fired, 15 or more calls of
    [loop] that recognise no command leave the servos in the pose of
    [setup], and the next call writes the angles that [setup] wrote. *)
Theorem home_after_quiet_calls (arrivals : list (list ascii)) (s : State)
  (buf : list ascii) :
  quiet_run' sketch_config s buf arrivals = true ->
  (15 <= List.length arrivals)%nat ->
  AZ s = 0 -> EL s = 0 ->
  servo_angle (last_AZservo_pos s) -> servo_angle (last_ELservo_pos s) ->
  let s' := fst (run' sketch_config s buf arrivals) in
  AZ s' = 0 /\ EL s' = 0 /\
  last_AZservo_pos s' = 90 /\ last_ELservo_pos s' = 0 /\
  snd (control sketch_config s') = setup sketch_config.
Proof.
  intros Hq Hn Ha He Hl1 Hl2. cbv zeta.
  rewrite (quiet_run_idle float parseFloat float_to_int _ _ _ _ Hq).
  pose proof (idle_home sketch_config (List.length arrivals) s Ha He) as H.
  cbv zeta in H. cbn [sketch_config minAZperslot maxAZperslot
                      minELperslot maxELperslot] in H.
  destruct H as (I1 & I2 & I3 & I4).
  rewrite !slew_iter_settled in I3, I4
    by (try assumption; unfold servo_angle; lia).
  set (s' := idle sketch_config (List.length arrivals) s) in *.
  split; [exact I1|]. split; [exact I2|]. split; [exact I3|].
  split; [exact I4|].
  pose proof (control_fields sketch_config s') as (_ & _ & F3 & F4 & F5 & _).
  rewrite F5, F3, F4, I1, I2, I3, I4. reflexivity.
Qed.

End LoopServo.

(** ** More on translateAZEL *)

(** [X13] An elevation whose remainder by 360 is 90 or more is taken as
    90: it is clamped, not wrapped, whatever the azimuth. *)
Theorem translateAZEL_elevation_clamped (az el : Z) (out : Z * Z) :
  90 <= Z.rem el 360 ->
  translateAZEL az el out = translateAZEL az 90 out.
Proof.
  intros He. rewrite !translateAZEL_math. cbv zeta.
  replace (Z.min (Z.rem el 360) 90) with 90 by lia.
  replace (Z.min (Z.rem 90 360) 90) with 90 by reflexivity.
  reflexivity.
Qed.

(** [X14] One degree more of azimuth is one degree less on the azimuth
    servo, with the elevation servo unchanged, except from 89 to 90 and
    from 269 to 270, where the azimuth servo swings from 1 to 180 and the
    elevation servo flips to the other side. *)
Theorem translateAZEL_next_degree (az el : Z) (out : Z * Z) :
  0 <= az <= 358 -> 0 <= el <= 90 ->
  let here := translateAZEL az el out in
  let next := translateAZEL (az + 1) el out in
  (az <> 89 -> az <> 269 ->
   fst next = fst here - 1 /\ snd next = snd here) /\
  (az = 89 \/ az = 269 ->
   fst here = 1 /\ fst next = 180 /\ snd next = 180 - snd here).
Proof.
  intros Ha He. cbv zeta.
  pose proof (translateAZEL_cases az el out) as C1.
  pose proof (translateAZEL_cases (az + 1) el out) as C2.
  cbv zeta in C1, C2. rewrite !Z.rem_small in C1, C2 by lia.
  rewrite !Z.min_l in C1, C2 by lia.
  destruct C1 as [[H1 ->] | [[H1 ->] | [[H1 ->] | [H1 _]]]]; [| | |lia];
    destruct C2 as [[H2 ->] | [[H2 ->] | [[H2 ->] | [H2 _]]]]; try lia;
    cbn [fst snd]; lia.
Qed.

(** ** Instances of the further properties *)

Lemma translateAZEL_flip_side_witness :
  translateAZEL 100 30 (90, 0) = (170, 150) /\
  1 <= fst (translateAZEL 100 30 (90, 0)) <= 180 /\
  snd (translateAZEL 100 30 (90, 0)) = 180 - 30.
Proof.
  destruct (translateAZEL_flip_side 100 30 (90, 0) ltac:(lia) ltac:(lia))
    as (H1 & _ & H3).
  split; [reflexivity|]. split; [exact H1|].
  apply H3. change (100 mod 360) with 100. lia.
Defined.

Lemma translateAZEL_injective_witness :
  translateAZEL 10 20 (90, 0) <> translateAZEL 190 20 (90, 0).
Proof.
  intros E.
  apply (translateAZEL_injective 10 20 190 20 (90, 0) (90, 0)) in E;
    lia.
Defined.

Lemma slew_converges_witness :
  Z.abs (slew 0 100 3 15 - 100) < Z.abs (0 - 100) /\
  slew 100 100 3 15 = 100 /\
  slew_iter 100 0 100 3 15 = 100.
Proof.
  destruct (slew_converges 0 100 3 15) as (H1 & H2 & H3);
    try (unfold half_int; lia).
  split; [apply H1; lia|]. split; [exact H2|]. apply H3. lia.
Defined.

Lemma slew_stalls_below_witness :
  slew 10 11 1 15 = 10 /\ slew_iter 1000 10 11 1 15 = 10.
Proof.
  destruct (slew_stalls_below 10 1 15 ltac:(lia) ltac:(lia)) as [H1 H2].
  split; [exact H1 | exact (H2 1000%nat)].
Defined.

Lemma slew_settles_in_15_witness :
  slew_iter 15 180 0 3 15 = 0 /\ slew_iter 40 0 180 3 15 = 180.
Proof.
  split.
  - apply (slew_settles_in_15 15 180 0); unfold servo_angle; lia.
  - apply (slew_settles_in_15 40 0 180); unfold servo_angle; lia.
Defined.

Lemma junk_one_per_call_witness :
  model_run sketch_config boot_state (bytes "xy" ++ bytes "AZ10 EL5")
    (repeat [] 2)
  = (idle sketch_config 2 boot_state, bytes "AZ10 EL5").
Proof.
  apply (junk_one_per_call decimal parseFloat_model decimal_to_int
           sketch_config (bytes "xy") boot_state (bytes "AZ10 EL5")).
  repeat constructor; discriminate.
Defined.

Lemma timer_within_limit_witness :
  0 <= reset_timer
         (fst (model_run sketch_config boot_state []
                 [bytes "AZ10 EL5"; []; bytes "junk"; []]))
    <= 30000.
Proof.
  apply (timer_within_limit decimal parseFloat_model decimal_to_int
           sketch_config [bytes "AZ10 EL5"; []; bytes "junk"; []]
           boot_state [] ltac:(cbn; lia)
           ltac:(cbn; unfold int_max; lia) ltac:(cbn; lia)).
Defined.

Lemma command_call_witness :
  let r := model_loop sketch_config after_command (bytes "AZ10 EL5") in
  reset_timer (fst (fst r)) = 100 /\
  AZ (fst (fst r)) = 10 /\ EL (fst (fst r)) = 5.
Proof.
  assert (Hslot : 0 < slot_time_ms sketch_config
                  <= reset_limit_ms sketch_config) by (cbn; lia).
  assert (Hlim : reset_limit_ms sketch_config <= int_max)
    by (cbn; unfold int_max; lia).
  pose proof (command_call decimal parseFloat_model decimal_to_int
                sketch_config after_command (bytes "Z10 EL5") Hslot Hlim)
    as (_ & H1 & H2 & H3 & _).
  cbv zeta. split; [exact H1|]. split; [exact H2 | exact H3].
Defined.

Lemma boot_state_servo_vars : servo_vars boot_state.
Proof. unfold servo_vars, servo_angle; cbn; lia. Qed.

Lemma loop_drives_servo_angles_witness :
  let r := model_loop sketch_config boot_state (bytes "AZ123.4 EL45.6") in
  snd r = (75, 15) /\
  servo_angle (fst (snd r)) /\ servo_angle (snd (snd r)).
Proof.
  pose proof (loop_drives_servo_angles decimal parseFloat_model
                decimal_to_int sketch_config boot_state
                (bytes "AZ123.4 EL45.6") boot_state_servo_vars
                ltac:(cbn; lia) ltac:(cbn; lia)
                ltac:(vm_compute; discriminate)
                ltac:(vm_compute; discriminate)) as (_ & H1 & H2).
  cbv zeta. split; [reflexivity|]. split; [exact H1 | exact H2].
Defined.

Lemma reachable_rate_limit_witness :
  let s := fst (model_run sketch_config boot_state [] [bytes "AZ200 EL-10"]) in
  let r := model_loop sketch_config s (bytes "AZ31 EL0") in
  Z.abs (last_AZservo_pos (fst (fst r)) - last_AZservo_pos s) <= 15 + 1 /\
  Z.abs (last_ELservo_pos (fst (fst r)) - last_ELservo_pos s) <= 15 + 1.
Proof.
  pose proof (reachable_rate_limit decimal parseFloat_model decimal_to_int
                sketch_config [bytes "AZ200 EL-10"] (bytes "AZ31 EL0")
                ltac:(cbn; lia) ltac:(cbn; lia)
                ltac:(cbn; lia) ltac:(cbn; lia))
    as (_ & H1 & H2 & _).
  cbv zeta. split; [exact H1 | exact H2].
Defined.

Lemma after_command_fields :
  AZ after_command = 123 /\ EL after_command = 45 /\
  last_AZservo_pos after_command = 105 /\
  last_ELservo_pos after_command = 15 /\
  reset_timer after_command = 100.
Proof. vm_compute. auto. Qed.

Lemma track_after_quiet_calls_witness :
  let s' := fst (model_run sketch_config after_command [] (repeat [] 15)) in
  AZ s' = 123 /\ EL s' = 45 /\
  last_AZservo_pos s' = 147 /\ last_ELservo_pos s' = 135.
Proof.
  destruct after_command_fields as (A1 & A2 & A3 & A4 & A5).
  pose proof (track_after_quiet_calls decimal parseFloat_model
                decimal_to_int (repeat [] 15) after_command []
                ltac:(reflexivity) ltac:(cbn; lia)
                ltac:(rewrite A1; lia) ltac:(rewrite A2; lia)
                ltac:(rewrite A3; unfold servo_angle; lia)
                ltac:(rewrite A4; unfold servo_angle; lia)
                ltac:(rewrite A5; lia)
                ltac:(rewrite A5; cbn; lia))
    as (H1 & H2 & H3 & H4 & _).
  cbv zeta. unfold model_run. rewrite H1, H2, H3, H4, A1, A2.
  repeat split.
Defined.

Lemma fired_fields :
  let fired :=
    fst (model_run sketch_config after_command [] (repeat [] 300)) in
  AZ fired = 0 /\ EL fired = 0 /\
  last_AZservo_pos fired = 147 /\ last_ELservo_pos fired = 135.
Proof. vm_compute. auto. Qed.

Lemma home_after_quiet_calls_witness :
  let fired :=
    fst (model_run sketch_config after_command [] (repeat [] 300)) in
  let s' := fst (model_run sketch_config fired [] (repeat [] 15)) in
  last_AZservo_pos s' = 90 /\ last_ELservo_pos s' = 0 /\
  snd (control sketch_config s') = (90, 0).
Proof.
  cbv zeta. destruct fired_fields as (F1 & F2 & F3 & F4).
  pose proof (home_after_quiet_calls decimal parseFloat_model decimal_to_int
                (repeat [] 15)
                (fst (model_run sketch_config after_command []
                        (repeat [] 300))) []
                ltac:(reflexivity) ltac:(cbn; lia) F1 F2
                ltac:(rewrite F3; unfold servo_angle; lia)
                ltac:(rewrite F4; unfold servo_angle; lia))
    as (_ & _ & H3 & H4 & H5).
  split; [exact H3|]. split; [exact H4|]. exact H5.
Defined.

Lemma translateAZEL_elevation_clamped_witness :
  translateAZEL 100 120 (90, 0) = translateAZEL 100 90 (90, 0) /\
  translateAZEL 100 90 (90, 0) = (170, 90).
Proof.
  split; [|reflexivity].
  apply (translateAZEL_elevation_clamped 100 120 (90, 0)).
  vm_compute. discriminate.
Defined.

Lemma translateAZEL_next_degree_witness :
  fst (translateAZEL 89 10 (90, 0)) = 1 /\
  fst (translateAZEL 90 10 (90, 0)) = 180 /\
  snd (translateAZEL 90 10 (90, 0)) = 180 - snd (translateAZEL 89 10 (90, 0)).
Proof.
  destruct (translateAZEL_next_degree 89 10 (90, 0) ltac:(lia) ltac:(lia))
    as [_ H].
  apply H. left. reflexivity.
Defined.
